(** * AstroSonar: the sweep clock, the crossing detector and the dispatcher

    A shallow embedding of [src/AstroSonar.jsx].

    Modelling conventions.
    - A JavaScript Number is a rational ([Q]).  The component's functions are
      first given with [+], [-], [*], [/] and [%] taken without rounding;
      equality of angles is [Qeq] ([==]), the equality of rationals as
      numbers.  Where a statement depends on the rounding of doubles,
      [binary64] rounds a rational to the nearest double (ties to even), and
      [wrapDeg64] and [frame_angle64] are the code's arithmetic with every
      operation rounded.  [NaN], the infinities, subnormals and overflow are
      outside the model.
    - [useState] cells and [useRef] cells are fields of one [State] record.
      An event handler or a frame callback runs in one piece on it.  The
      values a handler closes over are the constants of the render it was
      created in.  In [step] and [run] that render is the current one: the
      constants are the [hooks] of the state the handler starts from, and a
      [set...] call inside the handler does not change them, which matters
      where [reset] calls [buildGraph].  In [step_in] and [run_in] every
      event names the render whose closure handles it, which may be behind
      the state cells.
    - A property access [obj[k]] on a plain object finds an own property or
      a member inherited from [Object.prototype] ([js_get]); the functions
      ending in [_js] tell a call that returns from one that throws.
    - The Tone.js engine is an external collaborator: which effect classes it
      offers is a parameter ([ToneCaps]), the audio clock reading [Tone.now()]
      is an input of the event, and the notes handed to it are appended to the
      [scheduled] log. *)

From Stdlib Require Import QArith Qround Qabs Qminmax Qpower Qreduction Lia Lqa.
From stdpp Require Import gmap strings list.

(** ** Numbers *)

Local Open Scope Q_scope.

(** [Math.trunc]: rounding towards zero. *)
Definition Qtrunc (q : Q) : Z := Z.quot (Qnum q) (Zpos (Qden q)).

(** The JavaScript remainder [a % b]: the result takes the sign of the
    dividend, [a - b * trunc (a / b)].  The divisor is non-zero at every use
    in the source (it is the literal [360] or [SCALE.length]). *)
Definition js_rem (a b : Q) : Q := a - b * inject_Z (Qtrunc (a / b)).

Definition Qltb (x y : Q) : bool :=
  match x ?= y with Lt => true | _ => false end.

(** [const wrapDeg = (d) => ((d % 360) + 360) % 360;] *)
Definition wrapDeg (d : Q) : Q := js_rem (js_rem d 360 + 360) 360.

(** [const crossed = (prev, curr, target) => { ... }] *)
Definition crossed (prev curr target : Q) : bool :=
  let prev := wrapDeg prev in
  let curr := wrapDeg curr in
  let target := wrapDeg target in
  if Qle_bool prev curr then Qltb prev target && Qle_bool target curr
  else Qltb prev target || Qle_bool target curr.

(** An angle normalised to the canonical range. *)
Definition normalized (a : Q) : Prop := 0 <= a < 360.

(** ** Chart data *)

Record Planet := {
  key : string;
  glyph : string;
  deg : Q;
  instrument : string
}.

Definition PLANETS : list Planet := [
  {| key := "Sun"; glyph := "☉"; deg := 311.59; instrument := "lead" |};
  {| key := "Moon"; glyph := "☽"; deg := 52.1; instrument := "pad" |};
  {| key := "Mercury"; glyph := "☿"; deg := 317.52; instrument := "arp" |};
  {| key := "Venus"; glyph := "♀"; deg := 358.29; instrument := "bell" |};
  {| key := "Mars"; glyph := "♂"; deg := 100.01; instrument := "snare" |};
  {| key := "Jupiter"; glyph := "♃"; deg := 194.41; instrument := "bass" |};
  {| key := "Saturn"; glyph := "♄"; deg := 319.52; instrument := "pad" |};
  {| key := "Uranus"; glyph := "♅"; deg := 289.29; instrument := "hat" |};
  {| key := "Neptune"; glyph := "♆"; deg := 289.31; instrument := "hat" |};
  {| key := "Pluto"; glyph := "♇"; deg := 235.21; instrument := "tom" |};
  {| key := "Lilith"; glyph := "⚸"; deg := 351.59; instrument := "clap" |};
  {| key := "NNode"; glyph := "☊"; deg := 260.15; instrument := "bell" |};
  {| key := "Asc"; glyph := "ASC"; deg := 171.45; instrument := "kick" |};
  {| key := "MC"; glyph := "MC"; deg := 78.8; instrument := "lead" |}
].

(** [Object.fromEntries]: entries are written in order, a later entry for the
    same key overwrites an earlier one. *)
Definition fromEntries {V} (entries : list (string * V)) : gmap string V :=
  foldl (fun m e => <[fst e := snd e]> m) ∅ entries.

(** [const ORIGINAL_INSTRUMENTS = Object.fromEntries(PLANETS.map(p => [p.key, p.instrument]));] *)
Definition ORIGINAL_INSTRUMENTS : gmap string string :=
  fromEntries (map (fun p => (key p, instrument p)) PLANETS).

Definition SCALE : list string := [
  "G3"; "A3"; "B3"; "D4"; "E4";
  "G4"; "A4"; "B4"; "D5"; "E5";
  "G5"; "A5"; "B5"; "D6"; "E6"
].

Definition SCALE_length : Z := Z.of_nat (length SCALE).

(** [const pick = (i) => SCALE[(i % SCALE.length + SCALE.length) % SCALE.length];]
    on integers, where [%] is [Z.rem].  [None] is [undefined]. *)
Definition pick (i : Z) : option string :=
  SCALE !! Z.to_nat (Z.rem (Z.rem i SCALE_length + SCALE_length) SCALE_length).

(** The keys of [SOUND_LIBRARY], in order (the labels are only displayed). *)
Definition SOUND_LIBRARY : list (string * string) := [
  ("kick", "Kick (thump)");
  ("snare", "Snare (snap)");
  ("clap", "Clap (cute)");
  ("hat", "Hat (tsss)");
  ("tom", "Tom (boop)");
  ("bass", "Chip Bass");
  ("lead", "Square Lead (pew)");
  ("arp", "Arp (sparkle)");
  ("pad", "Soft Pad");
  ("bell", "Bell (ping)");
  ("pluck", "Pluck (pixie)");
  ("pulse", "Pulse Lead (cute)");
  ("blip", "Blip (game coin)")
].

(** ** The audio engine as seen by the component *)

(** The class of the synth [makeSynth] constructs; envelopes and volumes are
    voicing tables and play no role in the sweep. *)
Inductive SynthNode := MembraneSynth | NoiseSynth | MonoSynth | Synth.

Definition makeSynth (kind : string) : SynthNode :=
  match kind with
  | "kick" => MembraneSynth
  | "snare" => NoiseSynth
  | "clap" => NoiseSynth
  | "hat" => NoiseSynth
  | "tom" => MembraneSynth
  | "bass" => MonoSynth
  | "lead" => Synth
  | "arp" => Synth
  | "pad" => Synth
  | "bell" => Synth
  | "pluck" => Synth
  | "pulse" => Synth
  | "blip" => Synth
  | _ => Synth
  end%string.

Inductive FxKind := Distortion | AutoFilter | FeedbackDelay | Delay | Reverb.

(** An effect node; [fx_wet] is the value of its [wet] signal, [None] for a
    node without one ([Tone.Delay]). *)
Record FxNode := { fx_kind : FxKind; fx_wet : option Q }.

(** Which optional classes the Tone module offers ([Tone?.Distortion], ...),
    and what [Tone.Time("8n").toSeconds()] evaluates to. *)
Record ToneCaps := {
  has_Distortion : bool;
  has_AutoFilter : bool;
  has_FeedbackDelay : bool;
  has_Delay : bool;
  has_Reverb : bool;
  eighth_note_seconds : Q
}.

(** A freshly constructed effect is fully wet. *)
Definition new_fx (k : FxKind) : FxNode :=
  {| fx_kind := k; fx_wet := match k with Delay => None | _ => Some 1 end |}.

(** [if (node?.wet) node.wet.value = v;] *)
Definition set_wet (v : Q) (node : option FxNode) : option FxNode :=
  match node with
  | Some n =>
      match fx_wet n with
      | Some _ => Some {| fx_kind := fx_kind n; fx_wet := Some v |}
      | None => node
      end
  | None => None
  end.

(** A method call received by a synth. *)
Inductive AudioCall :=
| AttackRelease3 (note : option string) (dur : string) (time : Q)
| AttackRelease2 (dur : string) (time : Q)
| Attack (note : option string) (time : Q)
| Release (time : Q).

(** The receiver: the node of a planet's slot, or the throw-away synth that
    [handlePlayPause] sounds once. *)
Inductive Receiver :=
| PlanetNode (planet : string) (sound : option string) (node : SynthNode)
| FreshSynth.

(** ** Component state *)

(** One planet's instrument slot: [{ current: 'lead', nodes: { [key]: synth } }].
    [current] is [None] when it holds [undefined]. *)
Record Slot := { current : option string; nodes : gmap string SynthNode }.

(** The [useState] cells. *)
Record Hooks := {
  running : bool;
  bpm : Z;
  angle : Q;
  distWet : Q;
  filtWet : Q;
  delWet : Q;
  revWet : Q
}.

(** The [useRef] cells of the clock. *)
Record Clock := {
  baseTimeRef : option Q;
  baseAngleRef : Q;
  prevAngleRef : Q
}.

(** The [useRef] cells of the audio graph.  [mixRef], [masterRef] and
    [gainsRef] only hold wiring and are left out. *)
Record Graph := {
  builtRef : bool;
  distortionRef : option FxNode;
  autoFilterRef : option FxNode;
  delayRef : option FxNode;
  reverbRef : option FxNode;
  synthsRef : gmap string Slot;
  instrumentMap : gmap string string
}.

Record State := {
  hooks : Hooks;
  clock : Clock;
  graph : Graph;
  scheduled : list (Receiver * AudioCall)
}.

(** [const tempo = useMemo(() => 360 * (bpm / 60), [bpm]);] in degrees per
    second. *)
Definition tempo (bpm : Z) : Q := 360 * (inject_Z bpm / 60).

Definition initial : State := {|
  hooks := {| running := false; bpm := 60; angle := 0;
              distWet := 0.15; filtWet := 0.10; delWet := 0.18; revWet := 0.12 |};
  clock := {| baseTimeRef := None; baseAngleRef := 0; prevAngleRef := 0 |};
  graph := {| builtRef := false;
              distortionRef := None; autoFilterRef := None;
              delayRef := None; reverbRef := None;
              synthsRef := ∅;
              instrumentMap := fromEntries (map (fun p => (key p, instrument p)) PLANETS) |};
  scheduled := []
|}.

(** [Array.prototype.forEach] with the element and its index. *)
Fixpoint forEach_from {A St} (f : A -> nat -> St -> St) (l : list A) (i : nat) (s : St) : St :=
  match l with
  | [] => s
  | x :: l' => forEach_from f l' (S i) (f x i s)
  end.

Definition forEach {A St} (f : A -> nat -> St -> St) (l : list A) (s : St) : St :=
  forEach_from f l 0%nat s.

(** The key under which a property access [obj[k]] looks up [k]. *)
Definition js_key (k : option string) : string :=
  match k with Some s => s | None => "undefined" end.

(** ** The component's functions *)

Section Component.

(** The Tone module the component was loaded with. *)
Variable tone : ToneCaps.

(** The [nodes] object built for every planet: one prebuilt synth per entry
    of [SOUND_LIBRARY]. *)
Definition prebuilt_nodes : gmap string SynthNode :=
  foldl (fun nodes e => <[fst e := makeSynth (fst e)]> nodes) ∅ SOUND_LIBRARY.

(** [const add = (node, ref) => { if (!node) return; ...; if (ref) ref.current = node; };] *)
Definition add (node ref : option FxNode) : option FxNode :=
  match node with
  | Some n => Some n
  | None => ref
  end.

(** [buildGraph].  [h] holds the constants of the render whose closure calls
    it: the initial wet values are read from there. *)
Definition buildGraph (h : Hooks) (g : Graph) : Graph :=
  if builtRef g then g else
  let distortion :=
    if has_Distortion tone then Some (new_fx Distortion) else None in
  let autoFilter :=
    if has_AutoFilter tone then Some (new_fx AutoFilter) else None in
  let feedbackDelay :=
    if has_FeedbackDelay tone then Some (new_fx FeedbackDelay)
    else if has_Delay tone then Some (new_fx Delay) else None in
  let reverb :=
    if has_Reverb tone then Some (new_fx Reverb) else None in
  let distortion := set_wet (distWet h) distortion in
  let autoFilter := set_wet (filtWet h) autoFilter in
  let feedbackDelay := set_wet (delWet h) feedbackDelay in
  let reverb := set_wet (revWet h) reverb in
  let synths :=
    foldl (fun synths p =>
             <[key p := {| current := instrumentMap g !! key p;
                           nodes := prebuilt_nodes |}]> synths)
          ∅ PLANETS in
  {| builtRef := true;
     distortionRef := add distortion (distortionRef g);
     autoFilterRef := add autoFilter (autoFilterRef g);
     delayRef := add feedbackDelay (delayRef g);
     reverbRef := add reverb (reverbRef g);
     synthsRef := synths;
     instrumentMap := instrumentMap g |}.

(** The [switch (slot.current)] of [triggerPlanet]: the calls made on the
    node, for the planet at index [idx], at audio time [t]. *)
Definition voice_calls (sound : option string) (idx : Z) (t : Q) : list AudioCall :=
  let note := pick (Z.rem (idx * 3) SCALE_length) in
  match sound with
  | Some "kick" => [AttackRelease3 (Some "G1") "8n" t]
  | Some "snare" => [AttackRelease2 "16n" t]
  | Some "clap" => [AttackRelease2 "16n" t]
  | Some "hat" => [AttackRelease2 "32n" t]
  | Some "tom" => [AttackRelease3 (Some "D2") "16n" t]
  | Some "bass" => [AttackRelease3 (pick 0) "8n" t]
  | Some "lead" => [AttackRelease3 note "8n" t]
  | Some "arp" => [AttackRelease3 (pick (idx + 2)) "16n" t]
  | Some "pad" => [AttackRelease3 (pick (idx + 4)) "4n" t]
  | Some "bell" => [AttackRelease3 (pick (idx + 6)) "8n" t]
  | Some "pluck" => [Attack note t; Release (t + eighth_note_seconds tone)]
  | Some "pulse" => [AttackRelease3 note "8n" t]
  | Some "blip" => [AttackRelease3 (Some "E6") "32n" t]
  | _ => [AttackRelease3 note "8n" t]
  end%string.

(** [triggerPlanet(p, idx)]; [now] is what [Tone.now()] returns. *)
Definition triggerPlanet (now : Q) (p : Planet) (idx : nat) (s : State) : State :=
  match synthsRef (graph s) !! key p with
  | None => s
  | Some slot =>
      match nodes slot !! js_key (current slot) with
      | None => s
      | Some node =>
          {| hooks := hooks s;
             clock := clock s;
             graph := graph s;
             scheduled :=
               scheduled s ++
               map (fun c => (PlanetNode (key p) (current slot) node, c))
                   (voice_calls (current slot) (Z.of_nat idx) now) |}
      end
  end.

(** The dispatcher of the frame callback,
    [bodies.forEach((p, idx) => { if (crossed(prev, curr, p.deg)) trigger(p, idx); })],
    for any trigger and any state it acts on. *)
Definition dispatch {St} (trigger : Planet -> nat -> St -> St)
    (bodies : list Planet) (prev curr : Q) (s : St) : St :=
  forEach (fun p idx s => if crossed prev curr (deg p) then trigger p idx s else s)
          bodies s.

(** The frame callback [loop(ts)] of the effect that closed over [tempo]. *)
Definition loop (tempo ts now : Q) (s : State) : State :=
  let secs := ts / 1000 in
  let base := match baseTimeRef (clock s) with
              | None => secs
              | Some b => b
              end in
  let curr := wrapDeg (baseAngleRef (clock s) + (secs - base) * tempo) in
  let prev := prevAngleRef (clock s) in
  let s1 := {| hooks := hooks s;
               clock := {| baseTimeRef := Some base;
                           baseAngleRef := baseAngleRef (clock s);
                           prevAngleRef := prevAngleRef (clock s) |};
               graph := graph s;
               scheduled := scheduled s |} in
  let s2 := if builtRef (graph s1)
            then dispatch (triggerPlanet now) PLANETS prev curr s1
            else s1 in
  {| hooks := {| running := running (hooks s2);
                 bpm := bpm (hooks s2);
                 angle := curr;
                 distWet := distWet (hooks s2);
                 filtWet := filtWet (hooks s2);
                 delWet := delWet (hooks s2);
                 revWet := revWet (hooks s2) |};
     clock := {| baseTimeRef := baseTimeRef (clock s2);
                 baseAngleRef := baseAngleRef (clock s2);
                 prevAngleRef := curr |};
     graph := graph s2;
     scheduled := scheduled s2 |}.

(** [handlePlayPause]; [now] is what [Tone.now()] returns. *)
Definition handlePlayPause (now : Q) (s : State) : State :=
  let h := hooks s in
  if negb (running h) then
    {| hooks := {| running := true;
                   bpm := bpm h; angle := angle h;
                   distWet := distWet h; filtWet := filtWet h;
                   delWet := delWet h; revWet := revWet h |};
       clock := {| baseTimeRef := None;
                   baseAngleRef := baseAngleRef (clock s);
                   prevAngleRef := baseAngleRef (clock s) |};
       graph := buildGraph h (graph s);
       scheduled :=
         scheduled s ++ [(FreshSynth, AttackRelease3 (Some "A4"%string) "16n" (now + 0.05))] |}
  else
    {| hooks := {| running := false;
                   bpm := bpm h; angle := angle h;
                   distWet := distWet h; filtWet := filtWet h;
                   delWet := delWet h; revWet := revWet h |};
       clock := {| baseTimeRef := baseTimeRef (clock s);
                   baseAngleRef := angle h;
                   prevAngleRef := prevAngleRef (clock s) |};
       graph := graph s;
       scheduled := scheduled s |}.

(** [Object.keys(synthsRef.current).forEach(k => { ... .current = ORIGINAL_INSTRUMENTS[k]; })] *)
Definition restore_slots (synths : gmap string Slot) : gmap string Slot :=
  map_imap (fun k slot =>
              Some {| current := ORIGINAL_INSTRUMENTS !! k; nodes := nodes slot |})
           synths.

(** [reset] *)
Definition reset (s : State) : State :=
  let h := hooks s in
  let g := graph s in
  let d := 0.15 in
  let f := 0.10 in
  let l := 0.18 in
  let r := 0.12 in
  let g1 := {| builtRef := builtRef g;
               distortionRef := set_wet d (distortionRef g);
               autoFilterRef := set_wet f (autoFilterRef g);
               delayRef := set_wet l (delayRef g);
               reverbRef := set_wet r (reverbRef g);
               synthsRef := restore_slots (synthsRef g);
               instrumentMap := ORIGINAL_INSTRUMENTS |} in
  let g2 := if negb (builtRef g1) then buildGraph h g1 else g1 in
  {| hooks := {| running := running h;
                 bpm := 60;
                 angle := 0;
                 distWet := d; filtWet := f; delWet := l; revWet := r |};
     clock := (let c1 := {| baseTimeRef := baseTimeRef (clock s);
                            baseAngleRef := 0;
                            prevAngleRef := 0 |} in
               if running h
               then {| baseTimeRef := None;
                       baseAngleRef := baseAngleRef c1;
                       prevAngleRef := baseAngleRef c1 |}
               else c1);
     graph := g2;
     scheduled := scheduled s |}.

(** The tempo slider: [onChange={(e)=>setBpm(parseInt(e.target.value))}] *)
Definition onTempo (v : Z) (s : State) : State :=
  let h := hooks s in
  {| hooks := {| running := running h;
                 bpm := v; angle := angle h;
                 distWet := distWet h; filtWet := filtWet h;
                 delWet := delWet h; revWet := revWet h |};
     clock := clock s;
     graph := graph s;
     scheduled := scheduled s |}.

Inductive Fx := FxDistortion | FxFilter | FxDelay | FxReverb.

(** The four effect sliders:
    [onChange={(e)=>{ const v=parseFloat(e.target.value); setDistWet(v);
      if(distortionRef.current?.wet){distortionRef.current.wet.value=v;} }}] *)
Definition onWet (fx : Fx) (v : Q) (s : State) : State :=
  let h := hooks s in
  let g := graph s in
  let pick_v (which : Fx) (old : Q) : Q :=
    match fx, which with
    | FxDistortion, FxDistortion | FxFilter, FxFilter
    | FxDelay, FxDelay | FxReverb, FxReverb => v
    | _, _ => old
    end in
  let pick_n (which : Fx) (old : option FxNode) : option FxNode :=
    match fx, which with
    | FxDistortion, FxDistortion | FxFilter, FxFilter
    | FxDelay, FxDelay | FxReverb, FxReverb => set_wet v old
    | _, _ => old
    end in
  {| hooks := {| running := running h;
                 bpm := bpm h; angle := angle h;
                 distWet := pick_v FxDistortion (distWet h);
                 filtWet := pick_v FxFilter (filtWet h);
                 delWet := pick_v FxDelay (delWet h);
                 revWet := pick_v FxReverb (revWet h) |};
     clock := clock s;
     graph := {| builtRef := builtRef g;
                 distortionRef := pick_n FxDistortion (distortionRef g);
                 autoFilterRef := pick_n FxFilter (autoFilterRef g);
                 delayRef := pick_n FxDelay (delayRef g);
                 reverbRef := pick_n FxReverb (reverbRef g);
                 synthsRef := synthsRef g;
                 instrumentMap := instrumentMap g |};
     scheduled := scheduled s |}.

(** ** The component as a transition system *)

(** What can happen to a mounted component: an animation frame (with its
    timestamp in milliseconds and the audio clock reading), a click on
    Play/Pause (with the audio clock reading), a click on Reset, and a move
    of one of the sliders. *)
Inductive Event :=
| Frame (ts now : Q)
| ClickPlayPause (now : Q)
| ClickReset
| SlideTempo (v : Z)
| SlideWet (fx : Fx) (v : Q).

(** The animation effect schedules frames only while [running]; the loop it
    schedules closes over the tempo of the last render. *)
Definition step (s : State) (e : Event) : State :=
  match e with
  | Frame ts now =>
      if running (hooks s) then loop (tempo (bpm (hooks s))) ts now s else s
  | ClickPlayPause now => handlePlayPause now s
  | ClickReset => reset s
  | SlideTempo v => onTempo v s
  | SlideWet fx v => onWet fx v s
  end.

Definition run (s : State) (events : list Event) : State :=
  foldl step s events.

(** The trigger that only records its invocations, in order. *)
Definition record_call (p : Planet) (idx : nat) (calls : list (Planet * nat)) :
    list (Planet * nat) :=
  calls ++ [(p, idx)].

End Component.

(** A Tone module that offers every effect class, as Tone.js 15 does, with the
    transport at its default 120 BPM (an eighth note lasts a quarter of a
    second). *)
Definition tone15 : ToneCaps := {|
  has_Distortion := true;
  has_AutoFilter := true;
  has_FeedbackDelay := true;
  has_Delay := true;
  has_Reverb := true;
  eighth_note_seconds := 0.25
|}.

(** ** The rest of the component *)

(** [disposeGraph], the cleanup of the mount effect.  The effect nodes are
    disposed but their refs keep pointing at them. *)
Definition disposeGraph (g : Graph) : Graph :=
  if negb (builtRef g) then g else
  {| builtRef := false;
     distortionRef := distortionRef g;
     autoFilterRef := autoFilterRef g;
     delayRef := delayRef g;
     reverbRef := reverbRef g;
     synthsRef := ∅;
     instrumentMap := instrumentMap g |}.

(** [const tempoBadge = (x) => x === 60 ? "MEDITATE" : (x >= 100 && x <= 150 ? ... );] *)
Definition tempoBadge (x : Z) : string :=
  if (x =? 60)%Z then "MEDITATE"
  else if (100 <=? x)%Z && (x <=? 150)%Z then "WORK BITCH!"
  else if (160 <=? x)%Z then "BURNOUT"
  else "SLOW DOWN!".

(** [const badgeClass = (x) => (x <= 90 ? "flow" : x <= 150 ? "work" : "rave");] *)
Definition badgeClass (x : Z) : string :=
  if (x <=? 90)%Z then "flow" else if (x <=? 150)%Z then "work" else "rave".

(** *** Houses *)

(** [const ascDeg = useMemo(() => { const asc = PLANETS.find(p => p.key === "Asc");
      return asc ? asc.deg : 0; }, []);] *)
Definition ascDeg : Q :=
  match List.find (fun p => String.eqb (key p) "Asc") PLANETS with
  | Some asc => deg asc
  | None => 0
  end.

Definition ROMAN : list string :=
  ["I"; "II"; "III"; "IV"; "V"; "VI"; "VII"; "VIII"; "IX"; "X"; "XI"; "XII"].

Record House := { house_key : option string; house_deg : Q }.

(** [Array.from({ length: 12 }, (_, i) => ({ key: ROMAN[i], deg: wrapDeg(ascDeg + i * 30) }))],
    as a function of the ascendant it is memoised on. *)
Definition houses_at (asc : Q) : list House :=
  map (fun i => {| house_key := ROMAN !! i;
                   house_deg := wrapDeg (asc + inject_Z (Z.of_nat i) * 30) |})
      (seq 0 12).

Definition houses : list House := houses_at ascDeg.

(** *** The zodiac ring of [Scene] *)

Record Sign := { sign_key : string; sign_glyph : string; sign_deg : Q }.

Definition SIGNS : list Sign := [
  {| sign_key := "Aries"; sign_glyph := "♈"; sign_deg := 0 |};
  {| sign_key := "Taurus"; sign_glyph := "♉"; sign_deg := 30 |};
  {| sign_key := "Gemini"; sign_glyph := "♊"; sign_deg := 60 |};
  {| sign_key := "Cancer"; sign_glyph := "♋"; sign_deg := 90 |};
  {| sign_key := "Leo"; sign_glyph := "♌"; sign_deg := 120 |};
  {| sign_key := "Virgo"; sign_glyph := "♍"; sign_deg := 150 |};
  {| sign_key := "Libra"; sign_glyph := "♎"; sign_deg := 180 |};
  {| sign_key := "Scorpio"; sign_glyph := "♏"; sign_deg := 210 |};
  {| sign_key := "Sagittarius"; sign_glyph := "♐"; sign_deg := 240 |};
  {| sign_key := "Capricorn"; sign_glyph := "♑"; sign_deg := 270 |};
  {| sign_key := "Aquarius"; sign_glyph := "♒"; sign_deg := 300 |};
  {| sign_key := "Pisces"; sign_glyph := "♓"; sign_deg := 330 |}
].

(** [const wedgeWidth = 45;] *)
Definition wedgeWidth : Q := 45.

(** Whether [Scene] gives the glyph of sign [s] the class [active]:
    [const distRaw = Math.abs(wrapDeg(angle) - s.deg);
     const dist = Math.min(distRaw, 360 - distRaw);
     const within = dist <= wedgeWidth/2;] *)
Definition within (angle : Q) (s : Sign) : bool :=
  let distRaw := Qabs (wrapDeg angle - sign_deg s) in
  let dist := Qmin distRaw (360 - distRaw) in
  Qle_bool dist (wedgeWidth / 2).

(** ** Notions used in the statements *)

(** The slider cell, the node ref and the default that belong to an effect. *)
Definition hook_wet (fx : Fx) (h : Hooks) : Q :=
  match fx with
  | FxDistortion => distWet h
  | FxFilter => filtWet h
  | FxDelay => delWet h
  | FxReverb => revWet h
  end.

Definition fx_ref (fx : Fx) (g : Graph) : option FxNode :=
  match fx with
  | FxDistortion => distortionRef g
  | FxFilter => autoFilterRef g
  | FxDelay => delayRef g
  | FxReverb => reverbRef g
  end.

(** Every effect node that has a wet signal carries the value of its slider
    cell. *)
Definition wet_in_sync (s : State) : Prop :=
  forall fx n w,
    fx_ref fx (graph s) = Some n -> fx_wet n = Some w -> w = hook_wet fx (hooks s).

(** Every planet has its slot, set to the planet's own instrument, with the
    full set of prebuilt nodes. *)
Definition slots_ready (g : Graph) : Prop :=
  forall p, p ∈ PLANETS ->
    exists slot, synthsRef g !! key p = Some slot /\
                 current slot = Some (instrument p) /\
                 nodes slot = prebuilt_nodes.

(** The note argument of a call, when it has one. *)
Definition call_note (c : AudioCall) : option (option string) :=
  match c with
  | AttackRelease3 note _ _ => Some note
  | AttackRelease2 _ _ => None
  | Attack note _ => Some note
  | Release _ => None
  end.

(** ** Binary64 arithmetic *)

(** Where a property depends on how the last bit of a result is rounded,
    the code is evaluated with the rounding of JavaScript's Numbers: every
    [+], [-], [*] and [/] is followed by [binary64], rounding to the nearest
    number with a 53-bit significand, ties to even.  [%] is exact in IEEE-754 and keeps its definition
    [js_rem].  Overflow and subnormal numbers are not modelled: the angles,
    seconds and tempos of the component are far from both. *)

Definition round_half_even (q : Q) : Z :=
  let f := Qfloor q in
  match Qcompare (q - inject_Z f) (1 # 2) with
  | Lt => f
  | Gt => (f + 1)%Z
  | Eq => if Z.even f then f else (f + 1)%Z
  end.

(** The exponent [k] with [2 ^ k <= |q| < 2 ^ (k + 1)], for [q] not zero. *)
Definition binade (q : Q) : Z :=
  let k := (Z.log2 (Z.abs (Qnum q)) - Z.log2 (Zpos (Qden q)))%Z in
  if Qle_bool (2 ^ k) (Qabs q) then k else (k - 1)%Z.

Definition binary64 (q : Q) : Q :=
  let q := Qred q in
  if Qeq_bool q 0 then 0
  else let e := (binade q - 52)%Z in
       inject_Z (round_half_even (q / 2 ^ e)) * 2 ^ e.

(** [wrapDeg] as the code evaluates it: the two remainders are exact, the sum
    is rounded. *)
Definition wrapDeg64 (d : Q) : Q := js_rem (binary64 (js_rem d 360 + 360)) 360.

(** The angle of a frame as the code evaluates it (lines 236 to 238 of
    [loop]), from the base angle, the base time in seconds, the timestamp of
    the frame in milliseconds and the tempo:
    [const secs = ts / 1000;
     const curr = wrapDeg(baseAngleRef.current + (secs - baseTimeRef.current) * tempo);] *)
Definition frame_angle64 (baseAngle baseTime ts tempo : Q) : Q :=
  let secs := binary64 (ts / 1000) in
  wrapDeg64 (binary64 (baseAngle + binary64 (binary64 (secs - baseTime) * tempo))).


(** ** Events handled by a render that is behind *)

(** React re-renders some time after [setAngle]: a click can reach the
    [handlePlayPause] of the last committed render, whose constants [view]
    are older than the state cells.  The handler reads [running] and [angle]
    (and, through [buildGraph], the wet values) from [view]; it writes refs and
    state cells of the current state.  With [view] the hooks of the current
    state it is [handlePlayPause]. *)
Definition handlePlayPause_in (tone : ToneCaps) (view : Hooks) (now : Q) (s : State) : State :=
  let h := hooks s in
  if negb (running view) then
    {| hooks := {| running := true;
                   bpm := bpm h; angle := angle h;
                   distWet := distWet h; filtWet := filtWet h;
                   delWet := delWet h; revWet := revWet h |};
       clock := {| baseTimeRef := None;
                   baseAngleRef := baseAngleRef (clock s);
                   prevAngleRef := baseAngleRef (clock s) |};
       graph := buildGraph tone view (graph s);
       scheduled :=
         scheduled s ++ [(FreshSynth, AttackRelease3 (Some "A4"%string) "16n" (now + 0.05))] |}
  else
    {| hooks := {| running := false;
                   bpm := bpm h; angle := angle h;
                   distWet := distWet h; filtWet := filtWet h;
                   delWet := delWet h; revWet := revWet h |};
       clock := {| baseTimeRef := baseTimeRef (clock s);
                   baseAngleRef := angle view;
                   prevAngleRef := prevAngleRef (clock s) |};
       graph := graph s;
       scheduled := scheduled s |}.

(** [reset] of the render [view]: it reads [running] and, through
    [buildGraph], the wet values from [view]. *)
Definition reset_in (tone : ToneCaps) (view : Hooks) (s : State) : State :=
  let h := hooks s in
  let g := graph s in
  let d := 0.15 in
  let f := 0.10 in
  let l := 0.18 in
  let r := 0.12 in
  let g1 := {| builtRef := builtRef g;
               distortionRef := set_wet d (distortionRef g);
               autoFilterRef := set_wet f (autoFilterRef g);
               delayRef := set_wet l (delayRef g);
               reverbRef := set_wet r (reverbRef g);
               synthsRef := restore_slots (synthsRef g);
               instrumentMap := ORIGINAL_INSTRUMENTS |} in
  let g2 := if negb (builtRef g1) then buildGraph tone view g1 else g1 in
  {| hooks := {| running := running h;
                 bpm := 60;
                 angle := 0;
                 distWet := d; filtWet := f; delWet := l; revWet := r |};
     clock := (let c1 := {| baseTimeRef := baseTimeRef (clock s);
                            baseAngleRef := 0;
                            prevAngleRef := 0 |} in
               if running view
               then {| baseTimeRef := None;
                       baseAngleRef := baseAngleRef c1;
                       prevAngleRef := baseAngleRef c1 |}
               else c1);
     graph := g2;
     scheduled := scheduled s |}.

(** The component with every closure taken from a render [view] that may be
    behind the state cells: a frame callback exists for a render with
    [running] and closed over the tempo of that render; the click handlers
    are those of [view]; the sliders read no constant of the render.  The
    part of [handlePlayPause] after [await Tone.start()] changes the state
    in one piece, some time after the click and with the constants of the
    render of the click, so it is an event of its own with this [view]. *)
Definition step_in (tone : ToneCaps) (view : Hooks) (s : State) (e : Event) : State :=
  match e with
  | Frame ts now =>
      if running view then loop tone (tempo (bpm view)) ts now s else s
  | ClickPlayPause now => handlePlayPause_in tone view now s
  | ClickReset => reset_in tone view s
  | SlideTempo v => onTempo v s
  | SlideWet fx v => onWet fx v s
  end.

Definition run_in (tone : ToneCaps) (s : State) (events : list (Hooks * Event)) : State :=
  foldl (fun s ve => step_in tone (fst ve) s (snd ve)) s events.

(** ** Property access on plain objects *)

(** [synthsRef.current] and [slot.nodes] are plain objects: [obj[k]] finds an
    own property or, failing that, a member inherited from
    [Object.prototype]. *)
Definition Object_prototype_keys : list string := [
  "constructor"; "__defineGetter__"; "__defineSetter__"; "hasOwnProperty";
  "__lookupGetter__"; "__lookupSetter__"; "isPrototypeOf";
  "propertyIsEnumerable"; "toString"; "valueOf"; "__proto__"; "toLocaleString"
].

Inductive Found (V : Type) :=
| Own (v : V)
| Inherited
| Missing.

Arguments Own {V} v.
Arguments Inherited {V}.
Arguments Missing {V}.

Definition js_get {V} (obj : gmap string V) (k : string) : Found V :=
  match obj !! k with
  | Some v => Own v
  | None => if bool_decide (k ∈ Object_prototype_keys) then Inherited else Missing
  end.

(** A call either returns, or throws leaving the state it had reached. *)
Inductive Outcome :=
| Returned (s : State)
| Threw (s : State).

(** [triggerPlanet] with the property accesses of lines 254 to 257 as
    JavaScript performs them.  An inherited member passes the guards
    ([!slot], [!node]): for a slot, [slot.nodes] is then [undefined] and
    reading [slot.nodes[slot.current]] throws; for a node, the member has no
    [triggerAttackRelease] and the call of the [default] branch throws. *)
Definition triggerPlanet_js (tone : ToneCaps) (now : Q) (p : Planet) (idx : nat)
    (s : State) : Outcome :=
  match js_get (synthsRef (graph s)) (key p) with
  | Missing => Returned s
  | Inherited => Threw s
  | Own slot =>
      match js_get (nodes slot) (js_key (current slot)) with
      | Missing => Returned s
      | Inherited => Threw s
      | Own node =>
          Returned
            {| hooks := hooks s;
               clock := clock s;
               graph := graph s;
               scheduled :=
                 scheduled s ++
                 map (fun c => (PlanetNode (key p) (current slot) node, c))
                     (voice_calls tone (current slot) (Z.of_nat idx) now) |}
      end
  end.

(** [forEach] stops at the first callback that throws. *)
Fixpoint forEach_js_from {A} (f : A -> nat -> State -> Outcome) (l : list A) (i : nat)
    (s : State) : Outcome :=
  match l with
  | [] => Returned s
  | x :: l' =>
      match f x i s with
      | Returned s' => forEach_js_from f l' (S i) s'
      | Threw s' => Threw s'
      end
  end.

(** The frame callback with [triggerPlanet_js]: when a trigger throws, the
    lines after the dispatcher are not reached, so neither [prevAngleRef] nor
    the displayed angle is updated and no further frame is requested. *)
Definition loop_js (tone : ToneCaps) (tempo ts now : Q) (s : State) : Outcome :=
  let secs := ts / 1000 in
  let base := match baseTimeRef (clock s) with
              | None => secs
              | Some b => b
              end in
  let curr := wrapDeg (baseAngleRef (clock s) + (secs - base) * tempo) in
  let prev := prevAngleRef (clock s) in
  let s1 := {| hooks := hooks s;
               clock := {| baseTimeRef := Some base;
                           baseAngleRef := baseAngleRef (clock s);
                           prevAngleRef := prevAngleRef (clock s) |};
               graph := graph s;
               scheduled := scheduled s |} in
  let dispatched :=
    if builtRef (graph s1)
    then forEach_js_from
           (fun p idx s => if crossed prev curr (deg p)
                           then triggerPlanet_js tone now p idx s
                           else Returned s)
           PLANETS 0%nat s1
    else Returned s1 in
  match dispatched with
  | Threw s' => Threw s'
  | Returned s2 =>
      Returned
        {| hooks := {| running := running (hooks s2);
                       bpm := bpm (hooks s2);
                       angle := curr;
                       distWet := distWet (hooks s2);
                       filtWet := filtWet (hooks s2);
                       delWet := delWet (hooks s2);
                       revWet := revWet (hooks s2) |};
           clock := {| baseTimeRef := baseTimeRef (clock s2);
                       baseAngleRef := baseAngleRef (clock s2);
                       prevAngleRef := curr |};
           graph := graph s2;
           scheduled := scheduled s2 |}
  end.


(** What every state the component can reach satisfies, see
    [run_coherent]. *)
Definition coherent (s : State) : Prop :=
  prevAngleRef (clock s) = angle (hooks s) /\
  (running (hooks s) = false -> baseAngleRef (clock s) = angle (hooks s)) /\
  (running (hooks s) = true -> baseTimeRef (clock s) = None ->
   baseAngleRef (clock s) = angle (hooks s)) /\
  (running (hooks s) = true -> builtRef (graph s) = true) /\
  (builtRef (graph s) = true -> slots_ready (graph s)) /\
  instrumentMap (graph s) = ORIGINAL_INSTRUMENTS.

(** What the graph of every state satisfies, whichever renders handled the
    events, see [run_in_graph_ready]. *)
Definition graph_ready (s : State) : Prop :=
  (running (hooks s) = true -> builtRef (graph s) = true) /\
  (builtRef (graph s) = true -> slots_ready (graph s)) /\
  instrumentMap (graph s) = ORIGINAL_INSTRUMENTS.

(** * Properties *)

(** ** Comparison, truncation and remainder *)

Lemma Qltb_lt x y : Qltb x y = true <-> x < y.
Proof.
  unfold Qltb. rewrite Qlt_alt. destruct (x ?= y); split; congruence.
Qed.

Lemma Qltb_ge x y : Qltb x y = false <-> y <= x.
Proof.
  split; intros H.
  - apply Qnot_lt_le. intros Hlt. apply Qltb_lt in Hlt. congruence.
  - destruct (Qltb x y) eqn:E; [|reflexivity].
    apply Qltb_lt in E. exfalso. exact (Qlt_not_le _ _ E H).
Qed.

Lemma Qle_bool_gt x y : Qle_bool x y = false <-> y < x.
Proof.
  split; intros H.
  - apply Qnot_le_lt. intros Hle. apply Qle_bool_iff in Hle. congruence.
  - destruct (Qle_bool x y) eqn:E; [|reflexivity].
    apply Qle_bool_iff in E. exfalso. exact (Qlt_not_le _ _ H E).
Qed.

Lemma Qtrunc_nonneg q : 0 <= q -> Qtrunc q = Qfloor q.
Proof.
  destruct q as [n d]. unfold Qle, Qtrunc, Qfloor. simpl. intros H.
  apply Z.quot_div_nonneg; lia.
Qed.

Lemma Qtrunc_nonpos q : q <= 0 -> Qtrunc q = Qceiling q.
Proof.
  destruct q as [n d]. unfold Qle, Qtrunc, Qceiling, Qfloor. simpl. intros H.
  replace n with (- - n)%Z at 1 by lia.
  rewrite Z.quot_opp_l by lia. f_equal.
  apply Z.quot_div_nonneg; lia.
Qed.

(** The remainder by a positive divisor is smaller than the divisor in
    absolute value and has the sign of the dividend. *)
Lemma js_rem_nonneg a b :
  0 < b -> 0 <= a -> 0 <= js_rem a b < b.
Proof.
  intros Hb Ha. unfold js_rem.
  assert (Hq : 0 <= a / b).
  { apply Qle_shift_div_l; [exact Hb|]. lra. }
  rewrite (Qtrunc_nonneg _ Hq).
  pose proof (Qfloor_le (a / b)) as H1.
  pose proof (Qlt_floor (a / b)) as H2.
  rewrite inject_Z_plus in H2. change (inject_Z 1) with 1 in H2.
  assert (Hab : a == b * (a / b)) by (field; lra).
  set (k := inject_Z (Qfloor (a / b))) in *.
  set (q := a / b) in *.
  split.
  - assert (b * k <= b * q) by (apply Qmult_le_l; assumption).
    lra.
  - assert (b * q < b * (k + 1)) by (apply Qmult_lt_l; assumption).
    lra.
Qed.

Lemma js_rem_nonpos a b :
  0 < b -> a <= 0 -> - b < js_rem a b <= 0.
Proof.
  intros Hb Ha. unfold js_rem.
  assert (Hq : a / b <= 0).
  { apply Qle_shift_div_r; [exact Hb|]. lra. }
  rewrite (Qtrunc_nonpos _ Hq).
  pose proof (Qle_ceiling (a / b)) as H1.
  pose proof (Qceiling_lt (a / b)) as H2.
  unfold Z.sub in H2. rewrite inject_Z_plus in H2.
  change (inject_Z (-1)) with (-1) in H2.
  assert (Hab : a == b * (a / b)) by (field; lra).
  set (k := inject_Z (Qceiling (a / b))) in *.
  set (q := a / b) in *.
  split.
  - assert (b * (k + -1) < b * q) by (apply Qmult_lt_l; assumption).
    lra.
  - assert (b * q <= b * k) by (apply Qmult_le_l; assumption).
    lra.
Qed.

Lemma js_rem_bounds a b : 0 < b -> - b < js_rem a b < b.
Proof.
  intros Hb. destruct (Qlt_le_dec a 0) as [Ha|Ha].
  - destruct (js_rem_nonpos a b Hb) as [H1 H2]; [lra|]. split; lra.
  - destruct (js_rem_nonneg a b Hb Ha) as [H1 H2]. split; lra.
Qed.

(** The floor of [x / 360] is the only integer [k] that brings
    [x - 360 * k] into the canonical range. *)
Lemma floor_unique (x : Q) (k : Z) :
  0 <= x - 360 * inject_Z k < 360 -> k = Qfloor (x / 360).
Proof.
  intros [H1 H2].
  pose proof (Qfloor_le (x / 360)) as F1.
  pose proof (Qlt_floor (x / 360)) as F2.
  rewrite inject_Z_plus in F2. change (inject_Z 1) with 1 in F2.
  assert (Hx : x == 360 * (x / 360)) by (field; lra).
  set (q := x / 360) in *. set (m := Qfloor q) in *.
  assert (Hlo : inject_Z k < inject_Z (m + 1)).
  { rewrite inject_Z_plus. change (inject_Z 1) with 1. lra. }
  assert (Hhi : inject_Z m < inject_Z (k + 1)).
  { rewrite inject_Z_plus. change (inject_Z 1) with 1. lra. }
  rewrite <- Zlt_Qlt in Hlo, Hhi. lia.
Qed.

(** [wrapDeg] is the mathematical residue modulo 360. *)
Lemma wrapDeg_floor x : wrapDeg x == x - 360 * inject_Z (Qfloor (x / 360)).
Proof.
  unfold wrapDeg.
  assert (H360 : 0 < 360) by reflexivity.
  pose proof (js_rem_bounds x 360 H360) as [B1 B2].
  assert (Hy : 0 <= js_rem x 360 + 360) by lra.
  pose proof (js_rem_nonneg _ _ H360 Hy) as HR.
  remember (js_rem (js_rem x 360 + 360) 360) as r eqn:Er.
  unfold js_rem in Er at 1.
  remember (Qtrunc ((js_rem x 360 + 360) / 360)) as k2 eqn:Ek2.
  unfold js_rem in Er.
  remember (Qtrunc (x / 360)) as k1 eqn:Ek1.
  assert (E : r == x - 360 * inject_Z (k1 + k2 - 1)).
  { rewrite Er. unfold Z.sub. rewrite !inject_Z_plus, inject_Z_opp.
    change (inject_Z 1) with 1. ring. }
  rewrite (floor_unique x (k1 + k2 - 1)) in E; [exact E|].
  rewrite <- E. exact HR.
Qed.

Lemma wrapDeg_range x : 0 <= wrapDeg x < 360.
Proof.
  unfold wrapDeg. apply js_rem_nonneg; [reflexivity|].
  pose proof (js_rem_bounds x 360) as [B1 B2]; [reflexivity|]. lra.
Qed.

#[export] Instance wrapDeg_proper : Proper (Qeq ==> Qeq) wrapDeg.
Proof.
  intros x y Hxy. rewrite !wrapDeg_floor.
  assert (Hq : x / 360 == y / 360) by (rewrite Hxy; reflexivity).
  rewrite (Qfloor_comp _ _ Hq), Hxy. reflexivity.
Qed.

Lemma wrapDeg_period x (k : Z) : wrapDeg (x + 360 * inject_Z k) == wrapDeg x.
Proof.
  rewrite !wrapDeg_floor.
  assert (Hk : Qfloor ((x + 360 * inject_Z k) / 360) = (Qfloor (x / 360) + k)%Z).
  { symmetry. apply floor_unique.
    pose proof (Qfloor_le (x / 360)) as F1.
    pose proof (Qlt_floor (x / 360)) as F2.
    rewrite inject_Z_plus in F2. change (inject_Z 1) with 1 in F2.
    assert (Hx : x == 360 * (x / 360)) by (field; lra).
    rewrite inject_Z_plus.
    set (q := x / 360) in *. set (m := inject_Z (Qfloor q)) in *.
    split; lra. }
  rewrite Hk, inject_Z_plus. ring.
Qed.

(** An angle already in the canonical range is left alone. *)
Lemma wrapDeg_id x : 0 <= x < 360 -> wrapDeg x == x.
Proof.
  intros Hx. rewrite wrapDeg_floor.
  rewrite <- (floor_unique x 0).
  - change (inject_Z 0) with 0. ring.
  - change (inject_Z 0) with 0. lra.
Qed.

#[export] Instance crossed_proper : Proper (Qeq ==> Qeq ==> Qeq ==> eq) crossed.
Proof.
  intros p p' Hp c c' Hc t t' Ht. unfold crossed.
  pose proof (wrapDeg_proper _ _ Hp) as Wp.
  pose proof (wrapDeg_proper _ _ Hc) as Wc.
  pose proof (wrapDeg_proper _ _ Ht) as Wt.
  assert (E1 : Qle_bool (wrapDeg p) (wrapDeg c) = Qle_bool (wrapDeg p') (wrapDeg c'))
    by (rewrite Wp, Wc; reflexivity).
  assert (E2 : Qle_bool (wrapDeg t) (wrapDeg c) = Qle_bool (wrapDeg t') (wrapDeg c'))
    by (rewrite Wt, Wc; reflexivity).
  assert (E3 : Qltb (wrapDeg p) (wrapDeg t) = Qltb (wrapDeg p') (wrapDeg t'))
    by (unfold Qltb; rewrite Wp, Wt; reflexivity).
  cbv zeta. rewrite E1, E2, E3. reflexivity.
Qed.

(** ** The wrap function *)

(** *** Rounding *)

Lemma round_half_even_nonneg q : 0 <= q -> (0 <= round_half_even q)%Z.
Proof.
  intros Hq. unfold round_half_even.
  assert (Hf : (0 <= Qfloor q)%Z).
  { change 0%Z with (Qfloor 0). apply Qfloor_resp_le. exact Hq. }
  destruct (Qcompare _ _); [destruct (Z.even _)| |]; lia.
Qed.

Lemma two_power_pos (e : Z) : 0 < 2 ^ e.
Proof. apply Qpower_0_lt. reflexivity. Qed.

(** Rounding keeps the sign of a number that is not negative. *)
Lemma binary64_nonneg q : 0 <= q -> 0 <= binary64 q.
Proof.
  intros Hq. unfold binary64. cbv zeta.
  destruct (Qeq_bool (Qred q) 0); [apply Qle_refl|].
  pose proof (two_power_pos (binade (Qred q) - 52)) as Hp.
  apply Qmult_le_0_compat; [|apply Qlt_le_weak, Hp].
  change 0 with (inject_Z 0). rewrite <- Zle_Qle.
  apply round_half_even_nonneg.
  apply Qle_shift_div_l; [exact Hp|].
  rewrite Qmult_0_l, Qred_correct. exact Hq.
Qed.








Lemma wrapDeg64_range (x : Q) : 0 <= wrapDeg64 x < 360.
Proof.
  unfold wrapDeg64. apply js_rem_nonneg; [reflexivity|].
  apply binary64_nonneg.
  pose proof (js_rem_bounds x 360) as [B1 B2]; [reflexivity|]. lra.
Qed.

(** C7, as the code has it.  The wrap function is [((x % 360) + 360) % 360]
    with both remainders exact and the sum rounded to binary64.  Its result is
    in [0, 360) for every [x], negative ones included, with and without the
    rounding.  (That [x] and [x + 360 * k] wrap to the same angle, which
    holds in exact arithmetic, is lost to the rounding of the sum.) *)
Theorem wrapDeg64_spec (x : Q) :
  wrapDeg64 x = js_rem (binary64 (js_rem x 360 + 360)) 360 /\
  (forall a, js_rem a 360 = a - 360 * inject_Z (Qtrunc (a / 360))) /\
  0 <= wrapDeg64 x < 360 /\
  0 <= wrapDeg x < 360.
Proof.
  split; [reflexivity|]. split; [reflexivity|].
  split; [apply wrapDeg64_range | apply wrapDeg_range].
Qed.

(** ** The crossing detector *)

Lemma crossed_no_wrap prev curr target :
  wrapDeg prev <= wrapDeg curr ->
  crossed prev curr target = true <->
  wrapDeg prev < wrapDeg target /\ wrapDeg target <= wrapDeg curr.
Proof.
  intros Hle. unfold crossed. cbv zeta.
  apply Qle_bool_iff in Hle. rewrite Hle.
  rewrite andb_true_iff, Qltb_lt, Qle_bool_iff. reflexivity.
Qed.

Lemma crossed_wrap prev curr target :
  wrapDeg curr < wrapDeg prev ->
  crossed prev curr target = true <->
  wrapDeg prev < wrapDeg target \/ wrapDeg target <= wrapDeg curr.
Proof.
  intros Hgt. unfold crossed. cbv zeta.
  apply Qle_bool_gt in Hgt. rewrite Hgt.
  rewrite orb_true_iff, Qltb_lt, Qle_bool_iff. reflexivity.
Qed.

(** C1.  With [p], [c], [t] the normalised [prev], [curr], [target]:
    [crossed] holds exactly when [t] lies in the clockwise interval from [p]
    (excluded) to [c] (included), that is [p < t <= c] when [p <= c], and
    [t > p] or [t <= c] when [p > c].  The six sample steps of the spec come
    out as stated, and a step with [p == c] crosses nothing. *)
Theorem crossed_spec (prev curr target : Q) :
  let p := wrapDeg prev in
  let c := wrapDeg curr in
  let t := wrapDeg target in
  (crossed prev curr target = true <->
     (p <= c /\ p < t /\ t <= c) \/ (c < p /\ (p < t \/ t <= c))) /\
  (p <= c -> (crossed prev curr target = true <-> p < t /\ t <= c)) /\
  (c < p -> (crossed prev curr target = true <-> p < t \/ t <= c)) /\
  (p == c -> crossed prev curr target = false) /\
  crossed 10 20 15 = true /\ crossed 10 20 20 = true /\
  crossed 350 10 5 = true /\ crossed 350 10 355 = true /\
  crossed 10 20 10 = false /\ crossed 350 10 20 = false.
Proof.
  intros p c t.
  split; [|split; [|split; [|split]]].
  - destruct (Qlt_le_dec c p) as [Hgt|Hle].
    + rewrite (crossed_wrap _ _ _ Hgt). fold p c t. split.
      * intros H. right. split; assumption.
      * intros [[Hle _]|[_ H]]; [|exact H].
        exfalso. exact (Qlt_not_le _ _ Hgt Hle).
    + rewrite (crossed_no_wrap _ _ _ Hle). fold p c t. split.
      * intros H. left. split; assumption.
      * intros [[_ H]|[Hgt _]]; [exact H|].
        exfalso. exact (Qlt_not_le _ _ Hgt Hle).
  - intros Hle. exact (crossed_no_wrap _ _ _ Hle).
  - intros Hgt. exact (crossed_wrap _ _ _ Hgt).
  - intros Heq.
    destruct (crossed prev curr target) eqn:E; [|reflexivity].
    assert (Hle : p <= c) by (rewrite Heq; apply Qle_refl).
    apply (crossed_no_wrap _ _ _ Hle) in E. fold p c t in E.
    destruct E as [E1 E2]. exfalso.
    apply (Qlt_not_le _ _ E1). rewrite Heq. exact E2.
  - repeat split; vm_compute; reflexivity.
Qed.

(** ** Frames *)

Section Properties.

Variable tone : ToneCaps.

Lemma forEach_from_preserves {A St B} (proj : St -> B) (f : A -> nat -> St -> St) :
  (forall x i s, proj (f x i s) = proj s) ->
  forall l i s, proj (forEach_from f l i s) = proj s.
Proof.
  intros Hf l. induction l as [|x l IH]; intros i s; simpl; [reflexivity|].
  rewrite IH. apply Hf.
Qed.

(** A trigger touches nothing but the list of scheduled calls. *)
Lemma triggerPlanet_frame now p idx s :
  hooks (triggerPlanet tone now p idx s) = hooks s /\
  clock (triggerPlanet tone now p idx s) = clock s /\
  graph (triggerPlanet tone now p idx s) = graph s.
Proof.
  unfold triggerPlanet.
  destruct (synthsRef (graph s) !! key p) as [slot|]; [|auto].
  destruct (nodes slot !! js_key (current slot)); auto.
Qed.

Lemma dispatch_frame now bodies prev curr s :
  hooks (dispatch (triggerPlanet tone now) bodies prev curr s) = hooks s /\
  clock (dispatch (triggerPlanet tone now) bodies prev curr s) = clock s /\
  graph (dispatch (triggerPlanet tone now) bodies prev curr s) = graph s.
Proof.
  unfold dispatch, forEach.
  split; [|split];
    apply (forEach_from_preserves _
             (fun p idx s => if crossed prev curr (deg p)
                             then triggerPlanet tone now p idx s else s));
    intros x i s0; destruct (crossed prev curr (deg x)); try reflexivity;
    apply triggerPlanet_frame.
Qed.

(** The angle a frame at [ts] computes in state [s] under tempo [r]. *)
Lemma loop_clock r ts now s :
  let base := match baseTimeRef (clock s) with
              | None => ts / 1000
              | Some b => b
              end in
  let curr := wrapDeg (baseAngleRef (clock s) + (ts / 1000 - base) * r) in
  clock (loop tone r ts now s) =
    {| baseTimeRef := Some base;
       baseAngleRef := baseAngleRef (clock s);
       prevAngleRef := curr |} /\
  hooks (loop tone r ts now s) =
    {| running := running (hooks s); bpm := bpm (hooks s); angle := curr;
       distWet := distWet (hooks s); filtWet := filtWet (hooks s);
       delWet := delWet (hooks s); revWet := revWet (hooks s) |} /\
  graph (loop tone r ts now s) = graph s.
Proof.
  intros base curr. unfold loop. cbv zeta. fold base. fold curr.
  cbn [graph hooks clock].
  destruct (builtRef (graph s)).
  - match goal with
    | |- context [dispatch ?t ?b ?p ?c ?s0] =>
        destruct (dispatch_frame now b p c s0) as (Hh & Hc & Hg)
    end.
    rewrite Hh, Hc, Hg. cbn. auto.
  - cbn. auto.
Qed.

Lemma loop_angle r ts now s t0 :
  baseTimeRef (clock s) = Some t0 ->
  angle (hooks (loop tone r ts now s)) =
    wrapDeg (baseAngleRef (clock s) + (ts / 1000 - t0) * r) /\
  baseTimeRef (clock (loop tone r ts now s)) = Some t0 /\
  baseAngleRef (clock (loop tone r ts now s)) = baseAngleRef (clock s) /\
  running (hooks (loop tone r ts now s)) = running (hooks s) /\
  bpm (hooks (loop tone r ts now s)) = bpm (hooks s).
Proof.
  intros Hb. destruct (loop_clock r ts now s) as (Hc & Hh & _).
  rewrite Hb in Hc, Hh. rewrite Hc, Hh. cbn. auto.
Qed.





(** C3.  A move of the tempo slider while running leaves the clock's base
    timestamp and base angle as they were recorded at the last resume, and the
    next frame at time [t] computes [wrapDeg (baseAngle + (t - baseTimestamp) * r')]
    with the new tempo [r']: the whole interval since the resume is rescaled.
    For instance, half a second after play at 60 BPM the sweep is at 180
    degrees; after the slider moves to 120 BPM a frame at the very same
    timestamp puts it at 0 degrees. *)
Theorem tempo_change_rescales (s : State) (v : Z) (t0 ts now : Q) :
  running (hooks s) = true ->
  baseTimeRef (clock s) = Some t0 ->
  let s' := step tone s (SlideTempo v) in
  clock s' = clock s /\
  running (hooks s') = true /\
  baseTimeRef (clock (step tone s' (Frame ts now))) = Some t0 /\
  baseAngleRef (clock (step tone s' (Frame ts now))) = baseAngleRef (clock s) /\
  angle (hooks (step tone s' (Frame ts now))) =
    wrapDeg (baseAngleRef (clock s) + (ts / 1000 - t0) * tempo v) /\
  (let playing := run tone initial [ClickPlayPause 0; Frame 1000 0; Frame 1500 0] in
   angle (hooks playing) == 180 /\
   angle (hooks (run tone playing [SlideTempo 120; Frame 1500 0])) == 0).
Proof.
  intros Hrun Hb s'.
  assert (Hc : clock s' = clock s) by reflexivity.
  assert (Hr : running (hooks s') = true) by exact Hrun.
  assert (Hb' : baseTimeRef (clock s') = Some t0) by exact Hb.
  destruct (loop_angle (tempo (bpm (hooks s'))) ts now s' t0 Hb')
    as (An & Bn & Cn & _).
  assert (Hstep : step tone s' (Frame ts now) = loop tone (tempo v) ts now s').
  { cbn. rewrite Hrun. reflexivity. }
  rewrite Hstep.
  split; [exact Hc|]. split; [exact Hr|].
  split; [exact Bn|]. split; [exact Cn|]. split; [exact An|].
  split; vm_compute; reflexivity.
Qed.

(** ** The angles stay normalised *)

(** The invariant of the sweep: the displayed angle, the previous angle and
    the base angle are all in [0, 360). *)
Lemma normalized_0 : normalized 0.
Proof. unfold normalized. split; [apply Qle_refl | reflexivity]. Qed.

Lemma step_normalized s e :
  normalized (angle (hooks s)) /\
  normalized (prevAngleRef (clock s)) /\
  normalized (baseAngleRef (clock s)) ->
  normalized (angle (hooks (step tone s e))) /\
  normalized (prevAngleRef (clock (step tone s e))) /\
  normalized (baseAngleRef (clock (step tone s e))).
Proof.
  intros (Ha & Hp & Hb). destruct e as [ts now|now| |v|fx v]; cbn [step].
  - destruct (running (hooks s)); [|auto].
    destruct (loop_clock (tempo (bpm (hooks s))) ts now s) as (Hc & Hh & _).
    rewrite Hc, Hh. cbn. repeat split; try apply wrapDeg_range; apply Hb.
  - unfold handlePlayPause. destruct (running (hooks s)); cbn; auto.
  - unfold reset. pose proof normalized_0. destruct (running (hooks s)); cbn; auto.
  - cbn. auto.
  - cbn. auto.
Qed.

Lemma run_normalized events : forall s,
  normalized (angle (hooks s)) /\
  normalized (prevAngleRef (clock s)) /\
  normalized (baseAngleRef (clock s)) ->
  normalized (angle (hooks (run tone s events))) /\
  normalized (prevAngleRef (clock (run tone s events))) /\
  normalized (baseAngleRef (clock (run tone s events))).
Proof.
  induction events as [|e events IH]; intros s H; [exact H|].
  apply (IH (step tone s e)). apply step_normalized. exact H.
Qed.

Lemma initial_normalized :
  normalized (angle (hooks initial)) /\
  normalized (prevAngleRef (clock initial)) /\
  normalized (baseAngleRef (clock initial)).
Proof. pose proof normalized_0. cbn. auto. Qed.

(** C8.  After any sequence of frames, clicks on Play/Pause and Reset and
    slider moves from the initial state, the current angle and the previous
    angle are in [0, 360). *)
Theorem angles_normalized (events : list Event) :
  let s := run tone initial events in
  0 <= angle (hooks s) < 360 /\ 0 <= prevAngleRef (clock s) < 360.
Proof.
  destruct (run_normalized events initial initial_normalized) as (Ha & Hp & _).
  split; assumption.
Qed.

(** ** Pause, resume and reset *)

(** C5, as the code has it.  A click on Reset while running leaves the
    transport running; it forces the current, previous and base angle to 0 and
    clears the base timestamp, so that the next frame rebases the clock at its
    own timestamp and shows the angle 0. *)
Theorem reset_while_running (s : State) (ts now : Q) :
  running (hooks s) = true ->
  let s' := step tone s ClickReset in
  running (hooks s') = true /\
  angle (hooks s') = 0 /\
  prevAngleRef (clock s') = 0 /\
  baseAngleRef (clock s') = 0 /\
  baseTimeRef (clock s') = None /\
  baseTimeRef (clock (step tone s' (Frame ts now))) = Some (ts / 1000) /\
  angle (hooks (step tone s' (Frame ts now))) == 0.
Proof.
  intros Hrun s'.
  assert (H1 : running (hooks s') = true) by (cbn; exact Hrun).
  assert (H2 : clock s' = {| baseTimeRef := None; baseAngleRef := 0; prevAngleRef := 0 |}).
  { cbn. rewrite Hrun. reflexivity. }
  split; [exact H1|]. split; [reflexivity|].
  rewrite H2. cbn [prevAngleRef baseAngleRef baseTimeRef].
  split; [reflexivity|]. split; [reflexivity|]. split; [reflexivity|].
  cbn [step]. rewrite H1.
  destruct (loop_clock (tempo (bpm (hooks s'))) ts now s') as (Hc & Hh & _).
  rewrite H2 in Hc, Hh. cbn [prevAngleRef baseAngleRef baseTimeRef] in Hc, Hh.
  rewrite Hc, Hh. cbn [baseTimeRef angle]. split; [reflexivity|].
  rewrite <- (wrapDeg_id 0 normalized_0) at 2. apply wrapDeg_proper. ring.
Qed.

(** ** The trigger and the dispatcher *)

(** *** Lookups that find nothing inherited *)

Lemma js_get_own {V} (obj : gmap string V) (k : string) (v : V) :
  obj !! k = Some v -> js_get obj k = Own v.
Proof. intros H. unfold js_get. rewrite H. reflexivity. Qed.

Lemma js_get_missing {V} (obj : gmap string V) (k : string) :
  obj !! k = None -> k ∉ Object_prototype_keys -> js_get obj k = Missing.
Proof.
  intros H Hk. unfold js_get. rewrite H.
  rewrite bool_decide_eq_false_2 by exact Hk. reflexivity.
Qed.


Lemma planets_plain (q : Planet) :
  q ∈ PLANETS -> key q ∉ Object_prototype_keys.
Proof.
  unfold PLANETS. rewrite !elem_of_cons, elem_of_nil.
  intros H.
  repeat (destruct H as [->|H];
          [unfold Object_prototype_keys;
           repeat (apply not_elem_of_cons; split; [discriminate|]);
           apply not_elem_of_nil|]).
  destruct H.
Qed.

Lemma forEach_js_returns {A} (f_js : A -> nat -> State -> Outcome)
    (f : A -> nat -> State -> State) (Inv : State -> Prop) (l : list A) :
  (forall x i s, x ∈ l -> Inv s -> f_js x i s = Returned (f x i s) /\ Inv (f x i s)) ->
  forall i s, Inv s -> forEach_js_from f_js l i s = Returned (forEach_from f l i s).
Proof.
  induction l as [|x l IH]; intros Hf i s Hs; cbn; [reflexivity|].
  destruct (Hf x i s) as [E HI]; [constructor | exact Hs |].
  rewrite E. apply IH; [|exact HI].
  intros y j s' Hy. apply Hf. constructor. exact Hy.
Qed.





(** The bodies of a chart paired with their indices, counted from [i]. *)
Lemma indexed_cons (i : nat) (x : Planet) (l : list Planet) :
  imap (fun k p => (p, (i + k)%nat)) (x :: l) =
  (x, i) :: imap (fun k p => (p, (S i + k)%nat)) l.
Proof.
  cbn [imap]. f_equal.
  - f_equal. lia.
  - apply imap_ext. intros k p _. cbn. f_equal. lia.
Qed.

(** The dispatcher invokes its trigger on the crossed bodies, in chart order. *)
Lemma dispatch_from_calls {St} (trigger : Planet -> nat -> St -> St) prev curr bodies :
  forall (i : nat) (s : St),
  forEach_from (fun p idx s => if crossed prev curr (deg p) then trigger p idx s else s)
               bodies i s =
  foldl (fun s c => trigger (fst c) (snd c) s) s
        (filter (fun c => crossed prev curr (deg (fst c)) = true)
                (imap (fun k p => (p, (i + k)%nat)) bodies)).
Proof.
  induction bodies as [|x l IH]; intros i s; [reflexivity|].
  rewrite indexed_cons. cbn [forEach_from]. rewrite IH, filter_cons.
  cbn [fst]. destruct (crossed prev curr (deg x)) eqn:E.
  - rewrite decide_True by reflexivity. reflexivity.
  - rewrite decide_False by discriminate. reflexivity.
Qed.

Lemma foldl_record_call (calls : list (Planet * nat)) : forall acc,
  foldl (fun s c => record_call (fst c) (snd c) s) acc calls = acc ++ calls.
Proof.
  induction calls as [|[p i] calls IH]; intros acc; cbn.
  - rewrite app_nil_r. reflexivity.
  - rewrite IH. unfold record_call. rewrite <- app_assoc. reflexivity.
Qed.

Lemma indexed_0 (bodies : list Planet) :
  imap (fun k p => (p, (0 + k)%nat)) bodies = imap (fun k p => (p, k)) bodies.
Proof. apply imap_ext. intros k p _. reflexivity. Qed.

Lemma recorded_calls prev curr bodies :
  dispatch record_call bodies prev curr [] =
  filter (fun c => crossed prev curr (deg (fst c)) = true)
         (imap (fun k p => (p, k)) bodies).
Proof.
  unfold dispatch, forEach. rewrite dispatch_from_calls, foldl_record_call.
  rewrite indexed_0. reflexivity.
Qed.

Lemma indexed_NoDup (bodies : list Planet) :
  NoDup (imap (fun k p => (p, k)) bodies).
Proof.
  apply (NoDup_fmap_1 snd). rewrite fmap_imap.
  rewrite (imap_ext _ (fun (j : nat) (_ : Planet) => id j)) by reflexivity.
  rewrite imap_seq_0, list_fmap_id. apply NoDup_seq.
Qed.

(** What a run of triggers schedules depends on the graph and on what was
    scheduled before, not on the clock or the hooks. *)
Lemma triggers_scheduled now (calls : list (Planet * nat)) : forall s s',
  graph s = graph s' -> scheduled s = scheduled s' ->
  scheduled (foldl (fun s c => triggerPlanet tone now (fst c) (snd c) s) s calls) =
  scheduled (foldl (fun s c => triggerPlanet tone now (fst c) (snd c) s) s' calls).
Proof.
  induction calls as [|[p i] calls IH]; intros s s' Hg Hs; [exact Hs|].
  cbn [foldl fst snd]. apply IH.
  - destruct (triggerPlanet_frame now p i s) as (_ & _ & G).
    destruct (triggerPlanet_frame now p i s') as (_ & _ & G').
    rewrite G, G'. exact Hg.
  - unfold triggerPlanet. rewrite Hg.
    destruct (synthsRef (graph s') !! key p) as [slot|]; [|exact Hs].
    destruct (nodes slot !! js_key (current slot)); [|exact Hs].
    cbn. rewrite Hs. reflexivity.
Qed.

(** C6.  The dispatcher, for any chart, any trigger and any frame
    [(prev, curr)]: the trigger is invoked on the list [calls] of pairs
    (body, index), one after the other; [calls] holds, in chart order, the
    indexed bodies whose angle was crossed; no pair occurs twice, and a pair
    occurs if and only if the chart has that body at that index and its angle
    was crossed.  So two bodies at the same angle that is crossed are both
    invoked, once each.  In the frame callback the dispatcher runs over
    [PLANETS] with [triggerPlanet] when the graph is built, and not at all
    otherwise. *)
Theorem dispatcher_spec :
  (forall St (trigger : Planet -> nat -> St -> St) bodies prev curr (s : St),
     let calls := dispatch record_call bodies prev curr [] in
     dispatch trigger bodies prev curr s =
       foldl (fun s c => trigger (fst c) (snd c) s) s calls /\
     calls = filter (fun c => crossed prev curr (deg (fst c)) = true)
                    (imap (fun k p => (p, k)) bodies) /\
     NoDup calls /\
     (forall p i, (p, i) ∈ calls <->
                  bodies !! i = Some p /\ crossed prev curr (deg p) = true) /\
     (forall i j p q,
        i <> j -> bodies !! i = Some p -> bodies !! j = Some q ->
        deg p == deg q -> crossed prev curr (deg p) = true ->
        (p, i) ∈ calls /\ (q, j) ∈ calls)) /\
  (forall r ts now s,
     let base := match baseTimeRef (clock s) with
                 | None => ts / 1000
                 | Some b => b
                 end in
     let curr := wrapDeg (baseAngleRef (clock s) + (ts / 1000 - base) * r) in
     let calls := dispatch record_call PLANETS (prevAngleRef (clock s)) curr [] in
     scheduled (loop tone r ts now s) =
       if builtRef (graph s)
       then scheduled (foldl (fun s c => triggerPlanet tone now (fst c) (snd c) s) s calls)
       else scheduled s) /\
  (let a := {| key := "A"; glyph := "a"; deg := 90; instrument := "bell" |} in
   let b := {| key := "B"; glyph := "b"; deg := 90; instrument := "kick" |} in
   dispatch record_call [a; b] 80 100 [] = [(a, 0%nat); (b, 1%nat)] /\
   dispatch record_call [a; b] 100 110 [] = []).
Proof.
  split; [|split].
  - intros St trigger bodies prev curr s calls.
    assert (Hcalls : calls = filter (fun c => crossed prev curr (deg (fst c)) = true)
                                    (imap (fun k p => (p, k)) bodies))
      by apply recorded_calls.
    assert (Hmem : forall p i, (p, i) ∈ calls <->
                     bodies !! i = Some p /\ crossed prev curr (deg p) = true).
    { intros p i. rewrite Hcalls, list_elem_of_filter, elem_of_lookup_imap. cbn.
      split.
      - intros (Hc & k & y & Heq & Hk). inversion Heq; subst. auto.
      - intros (Hi & Hc). split; [exact Hc|]. exists i, p. auto. }
    split.
    { unfold dispatch, forEach. rewrite dispatch_from_calls, indexed_0.
      rewrite Hcalls. reflexivity. }
    split; [exact Hcalls|]. split.
    { rewrite Hcalls. apply NoDup_filter, indexed_NoDup. }
    split; [exact Hmem|].
    intros i j p q _ Hi Hj Hdeg Hc. split; apply Hmem; split; auto.
    rewrite <- Hdeg. exact Hc.
  - intros r ts now s base curr calls.
    unfold loop. cbv zeta. fold base. fold curr. cbn [graph scheduled].
    destruct (builtRef (graph s)); [|reflexivity].
    unfold dispatch at 1. unfold forEach. rewrite dispatch_from_calls, indexed_0.
    rewrite <- recorded_calls. fold calls.
    apply triggers_scheduled; reflexivity.
  - split; vm_compute; reflexivity.
Qed.

(** ** What reset restores *)

Lemma built_slots_current (im : gmap string string) (l : list Planet) :
  forall acc : gmap string Slot,
  (forall k slot, acc !! k = Some slot -> current slot = im !! k) ->
  forall k slot,
    foldl (fun synths p =>
             <[key p := {| current := im !! key p; nodes := prebuilt_nodes |}]> synths)
          acc l !! k = Some slot ->
    current slot = im !! k.
Proof.
  induction l as [|p l IH]; intros acc Hacc k slot; cbn [foldl]; [apply Hacc|].
  apply IH. intros k' slot'. rewrite lookup_insert. case_decide as Hk.
  - intros [= <-]. rewrite Hk. reflexivity.
  - apply Hacc.
Qed.

Lemma built_slots_cover (im : gmap string string) (l : list Planet) :
  forall (acc : gmap string Slot) k,
  is_Some (acc !! k) \/ (exists p, p ∈ l /\ key p = k) ->
  is_Some (foldl (fun synths p =>
                    <[key p := {| current := im !! key p; nodes := prebuilt_nodes |}]> synths)
                 acc l !! k).
Proof.
  induction l as [|p l IH]; intros acc k H; cbn [foldl].
  - destruct H as [H|(p & Hp & _)]; [exact H|]. inversion Hp.
  - apply IH. destruct H as [H|(q & Hq & Hk)].
    + left. rewrite lookup_insert. case_decide; [eexists; reflexivity | exact H].
    + apply elem_of_cons in Hq as [->|Hq].
      * left. rewrite Hk, lookup_insert_eq. eexists; reflexivity.
      * right. exists q. auto.
Qed.

Lemma original_instruments_lookup (p : Planet) :
  p ∈ PLANETS -> ORIGINAL_INSTRUMENTS !! key p = Some (instrument p).
Proof.
  unfold PLANETS. rewrite !elem_of_cons, elem_of_nil.
  intros H. repeat (destruct H as [->|H]; [vm_compute; reflexivity|]).
  destruct H.
Qed.

(** Everything [reset] restores besides the angles.  The wet values of the
    effect nodes are only covered for a graph that was built before the
    click. *)
Lemma reset_restores (s : State) :
  let s' := reset tone s in
  bpm (hooks s') = 60%Z /\
  tempo (bpm (hooks s')) == 360 /\
  running (hooks s') = running (hooks s) /\
  (distWet (hooks s') = 0.15 /\ filtWet (hooks s') = 0.10 /\
   delWet (hooks s') = 0.18 /\ revWet (hooks s') = 0.12) /\
  builtRef (graph s') = true /\
  instrumentMap (graph s') = ORIGINAL_INSTRUMENTS /\
  (forall k slot, synthsRef (graph s') !! k = Some slot ->
                  current slot = ORIGINAL_INSTRUMENTS !! k) /\
  (builtRef (graph s) = false ->
   forall p, p ∈ PLANETS ->
   exists slot, synthsRef (graph s') !! key p = Some slot /\
                current slot = Some (instrument p)) /\
  (builtRef (graph s) = true ->
   distortionRef (graph s') = set_wet 0.15 (distortionRef (graph s)) /\
   autoFilterRef (graph s') = set_wet 0.10 (autoFilterRef (graph s)) /\
   delayRef (graph s') = set_wet 0.18 (delayRef (graph s)) /\
   reverbRef (graph s') = set_wet 0.12 (reverbRef (graph s))).
Proof.
  intros s'.
  split; [reflexivity|]. split; [reflexivity|]. split; [reflexivity|].
  split; [cbn; auto|].
  unfold s', reset. cbv zeta. cbn [graph builtRef].
  destruct (builtRef (graph s)) eqn:Hbuilt; cbn [negb].
  - cbn [builtRef instrumentMap synthsRef distortionRef autoFilterRef delayRef reverbRef].
    split; [reflexivity|]. split; [reflexivity|]. split.
    { intros k slot. unfold restore_slots. rewrite map_lookup_imap.
      destruct (synthsRef (graph s) !! k) as [old|]; cbn; [|discriminate].
      intros [= <-]. reflexivity. }
    split; [discriminate|]. auto.
  - unfold buildGraph. cbn [builtRef instrumentMap synthsRef].
    split; [reflexivity|]. split; [reflexivity|]. split.
    { apply built_slots_current. intros k slot. rewrite lookup_empty. discriminate. }
    split; [|discriminate].
    intros _ p Hp.
    destruct (built_slots_cover ORIGINAL_INSTRUMENTS PLANETS ∅ (key p)) as [slot Hslot].
    { right. exists p. auto. }
    exists slot. split; [exact Hslot|].
    rewrite (built_slots_current ORIGINAL_INSTRUMENTS PLANETS ∅) with (k := key p) (slot := slot).
    + apply original_instruments_lookup, Hp.
    + intros k slot0. rewrite lookup_empty. discriminate.
    + exact Hslot.
Qed.

End Properties.

(** ** The theorems at concrete runs *)



(** C7 as the spec words it fails in the code's arithmetic: -159.9 plus one
    turn is 200.1, [wrapDeg] maps -159.9 to 200.1 but maps 200.1 to a
    binary64 number above it, printed 200.10000000000002; and 52.1 is not
    mapped to itself. *)
Lemma wrapDeg64_not_periodic :
  let x := binary64 (-159.9) in
  binary64 (x + binary64 (360 * 1)) == binary64 200.1 /\
  wrapDeg64 x == binary64 200.1 /\
  wrapDeg64 (binary64 (x + binary64 (360 * 1))) == binary64 200.10000000000002 /\
  ~ wrapDeg64 (binary64 (x + binary64 (360 * 1))) == wrapDeg64 x /\
  ~ wrapDeg64 (binary64 52.1) == binary64 52.1.
Proof.
  cbv zeta. split; [vm_compute; reflexivity|]. split; [vm_compute; reflexivity|].
  split; [vm_compute; reflexivity|].
  split; intros H; vm_compute in H; discriminate H.
Qed.

(** Play at 60 BPM, two frames half a second apart, then the slider moves to
    120 BPM: the next frame applies the new tempo to the whole half second. *)
Lemma tempo_change_rescales_witness :
  let s := run tone15 initial [ClickPlayPause 0; Frame 1000 0; Frame 1500 0] in
  running (hooks s) = true /\
  baseTimeRef (clock s) = Some (1000 / 1000) /\
  angle (hooks (run tone15 s [SlideTempo 120; Frame 1500 0])) =
    wrapDeg (0 + (1500 / 1000 - 1000 / 1000) * tempo 120).
Proof.
  cbv zeta. split; [reflexivity|]. split; [reflexivity|].
  pose proof (tempo_change_rescales tone15
                (run tone15 initial [ClickPlayPause 0; Frame 1000 0; Frame 1500 0])
                120 (1000 / 1000) 1500 0 eq_refl eq_refl) as H.
  cbv zeta in H. destruct H as (_ & _ & _ & _ & H & _).
  exact H.
Defined.

(** C4, evaluated where the code departs from it.  [handlePlayPause] stores
    as base angle the [angle] of the render it belongs to (line 288), not the
    angle the last frame computed.  When the click is handled by the current
    render the two agree and the handler is the atomic [handlePlayPause].
    When React has not yet re-rendered after the last frame they differ:
    play, frames at 1000 and 1125 ms (45 degrees, rendered), a frame at
    1250 ms (90 degrees, re-render pending), then Pause.  The paused
    component shows 90 degrees with base angle 45; Play and the next frame
    put the sweep back at 45 degrees, and the Moon at 52.1 degrees and the
    midheaven at 78.8 degrees, already sounded on the way to 90, are sounded
    again.  The timestamps are chosen so that no operation rounds: the angles
    are the same with every operation rounded to binary64. *)
Theorem pause_reads_rendered_angle :
  (forall tone view now s,
     running view = true ->
     let paused := handlePlayPause_in tone view now s in
     running (hooks paused) = false /\
     baseAngleRef (clock paused) = angle view /\
     angle (hooks paused) = angle (hooks s) /\
     prevAngleRef (clock paused) = prevAngleRef (clock s)) /\
  (forall tone now s,
     handlePlayPause_in tone (hooks s) now s = handlePlayPause tone now s) /\
  (let rendered := run tone15 initial [ClickPlayPause 0; Frame 1000 0; Frame 1125 0] in
   let s := step tone15 rendered (Frame 1250 0) in
   let paused := handlePlayPause_in tone15 (hooks rendered) 1 s in
   let resumed := step tone15 paused (ClickPlayPause 2) in
   let first := step tone15 resumed (Frame 5000 2) in
   let later := step tone15 first (Frame 5125 3) in
   angle (hooks rendered) == 45 /\
   angle (hooks s) == 90 /\
   prevAngleRef (clock s) == 90 /\
   running (hooks paused) = false /\
   angle (hooks paused) == 90 /\
   baseAngleRef (clock paused) == 45 /\
   angle (hooks first) == 45 /\
   angle (hooks later) == 90 /\
   scheduled later =
     [(FreshSynth, AttackRelease3 (Some "A4"%string) "16n" 0.05);
      (PlanetNode "Moon" (Some "pad"%string) Synth,
       AttackRelease3 (Some "G4"%string) "4n" 0);
      (PlanetNode "MC" (Some "lead"%string) Synth,
       AttackRelease3 (Some "E5"%string) "8n" 0);
      (FreshSynth, AttackRelease3 (Some "A4"%string) "16n" 2.05);
      (PlanetNode "Moon" (Some "pad"%string) Synth,
       AttackRelease3 (Some "G4"%string) "4n" 3);
      (PlanetNode "MC" (Some "lead"%string) Synth,
       AttackRelease3 (Some "E5"%string) "8n" 3)]) /\
  (let tempo64 := binary64 (360 * binary64 (60 / 60)) in
   let t0 := binary64 (1000 / 1000) in
   let t1 := binary64 (5000 / 1000) in
   tempo64 == 360 /\
   frame_angle64 0 t0 1125 tempo64 == 45 /\
   frame_angle64 0 t0 1250 tempo64 == 90 /\
   frame_angle64 45 t1 5000 tempo64 == 45 /\
   frame_angle64 45 t1 5125 tempo64 == 90).
Proof.
  split; [|split; [|split]].
  - intros tone view now s Hrun. cbv zeta. unfold handlePlayPause_in.
    rewrite Hrun. cbn. auto.
  - intros tone now s. reflexivity.
  - cbv zeta. repeat split; vm_compute; reflexivity.
  - cbv zeta. repeat split; vm_compute; reflexivity.
Qed.

(** Play, a quarter turn of frames, then Reset: still running, at angle 0. *)
Lemma reset_while_running_witness :
  let s := run tone15 initial [ClickPlayPause 0; Frame 1000 0; Frame 1250 0] in
  running (hooks s) = true /\
  running (hooks (step tone15 s ClickReset)) = true /\
  angle (hooks (step tone15 s ClickReset)) = 0.
Proof.
  cbv zeta. split; [reflexivity|].
  pose proof (reset_while_running tone15
                (run tone15 initial [ClickPlayPause 0; Frame 1000 0; Frame 1250 0])
                5000 0 eq_refl) as H.
  cbv zeta in H. destruct H as (H1 & H2 & _).
  split; [exact H1 | exact H2].
Defined.

(** C5 as the spec words it fails: reset does not stop a running transport. *)
Lemma reset_does_not_stop :
  let s := run tone15 initial [ClickPlayPause 0; Frame 1000 0; Frame 1250 0] in
  ~ (running (hooks s) = true ->
     running (hooks (step tone15 s ClickReset)) = false).
Proof.
  cbv zeta. intros H. specialize (H eq_refl). vm_compute in H. discriminate H.
Qed.



(** C10.  Reset is meant to put the four wet levels back to 0.15, 0.10, 0.18
    and 0.12, in the sliders and in the effect nodes.  Evaluated on the run
    "move the distortion slider to 0.5 before the first Play, then Reset":
    the slider cell is back at 0.15, but [reset] builds the graph after it
    has written the nodes, and [buildGraph] reads the wet values of the
    render that is on screen, so the new distortion node is at 0.5.  When
    Play came first the node is at 0.15 as well. *)
Theorem reset_builds_with_stale_wet :
  (let s := run tone15 initial [SlideWet FxDistortion 0.5; ClickReset] in
   builtRef (graph s) = true /\
   distWet (hooks s) = 0.15 /\
   distortionRef (graph s) = Some {| fx_kind := Distortion; fx_wet := Some 0.5 |}) /\
  (let s := run tone15 initial [ClickPlayPause 0; SlideWet FxDistortion 0.5; ClickReset] in
   builtRef (graph s) = true /\
   distWet (hooks s) = 0.15 /\
   distortionRef (graph s) = Some {| fx_kind := Distortion; fx_wet := Some 0.15 |}).
Proof.
  split; cbv zeta; repeat split; vm_compute; reflexivity.
Qed.

(** * Further properties of the component *)

(** ** The scale *)

Lemma pick_index (i : Z) :
  Z.rem (Z.rem i 15 + 15) 15 = (i mod 15)%Z.
Proof.
  pose proof (Z.quot_rem' i 15) as Hi.
  assert (Hr : (- 15 < Z.rem i 15 < 15)%Z).
  { pose proof (Z.rem_bound_abs i 15). lia. }
  rewrite Z.rem_mod_nonneg by lia.
  replace (Z.rem i 15 + 15)%Z with (i + (1 - i ÷ 15) * 15)%Z by lia.
  apply Z_mod_plus_full.
Qed.

(** X1.  [pick] never returns [undefined]: for every integer index, negative
    ones included, it is the note of [SCALE] at the index reduced modulo 15
    (the mathematical residue), so it is a note of the scale and shifting the
    index by a multiple of 15 gives the same note. *)
Theorem pick_total (i k : Z) :
  pick i = SCALE !! Z.to_nat (i mod 15) /\
  (exists note, pick i = Some note /\ note ∈ SCALE) /\
  pick (i + 15 * k) = pick i.
Proof.
  assert (Hp : forall j, pick j = SCALE !! Z.to_nat (j mod 15)).
  { intros j. unfold pick. change SCALE_length with 15%Z.
    rewrite pick_index. reflexivity. }
  split; [apply Hp|]. split.
  - rewrite Hp.
    pose proof (Z.mod_pos_bound i 15) as Hb.
    destruct (lookup_lt_is_Some_2 SCALE (Z.to_nat (i mod 15))) as [note Hn].
    { change (length SCALE) with 15%nat. lia. }
    exists note. split; [exact Hn|].
    apply list_elem_of_lookup. eexists; exact Hn.
  - rewrite !Hp. do 2 f_equal.
    rewrite (Z.mul_comm 15 k). apply Z_mod_plus_full.
Qed.

(** ** More on the crossing detector *)

(** Case analysis on every comparison of the goal. *)
Ltac compare_all :=
  repeat match goal with
         | |- context [Qle_bool ?x ?y] =>
             let E := fresh "E" in
             destruct (Qle_bool x y) eqn:E;
             [apply Qle_bool_iff in E | apply Qle_bool_gt in E]
         | |- context [Qltb ?x ?y] =>
             let E := fresh "E" in
             destruct (Qltb x y) eqn:E;
             [apply Qltb_lt in E | apply Qltb_ge in E]
         end.

Lemma crossed_split_wrapped (P M C T : Q) :
  (if Qle_bool P C then Qltb P M && Qle_bool M C
   else Qltb P M || Qle_bool M C) = true ->
  let whole := if Qle_bool P C then Qltb P T && Qle_bool T C
               else Qltb P T || Qle_bool T C in
  let first := if Qle_bool P M then Qltb P T && Qle_bool T M
               else Qltb P T || Qle_bool T M in
  let second := if Qle_bool M C then Qltb M T && Qle_bool T C
                else Qltb M T || Qle_bool T C in
  whole = first || second /\ first && second = false.
Proof.
  cbv zeta. compare_all; cbn; intros H; try discriminate H;
    (split; try reflexivity; exfalso; lra).
Qed.

(** X3.  Cutting a step in two loses and repeats nothing.  If the angle [mid]
    lies on the arc the step from [prev] to [curr] sweeps, then a target is
    crossed by the whole step exactly when it is crossed by the step from
    [prev] to [mid] or by the step from [mid] to [curr], and never by both. *)
Theorem crossed_split (prev mid curr target : Q) :
  crossed prev curr mid = true ->
  crossed prev curr target =
    crossed prev mid target || crossed mid curr target /\
  crossed prev mid target && crossed mid curr target = false.
Proof.
  unfold crossed. cbv zeta. apply crossed_split_wrapped.
Qed.

Lemma crossed_complement_wrapped (P C T : Q) :
  ~ P == C ->
  (if Qle_bool C P then Qltb C T && Qle_bool T P
   else Qltb C T || Qle_bool T P) =
  negb (if Qle_bool P C then Qltb P T && Qle_bool T C
        else Qltb P T || Qle_bool T C).
Proof.
  intros Hne.
  assert (Hor : P < C \/ C < P).
  { destruct (Q_dec P C) as [[H|H]|H]; [left; exact H | right; exact H | contradiction]. }
  compare_all; cbn; try reflexivity; exfalso; destruct Hor; lra.
Qed.

(** X4.  Two different angles cut the circle into two arcs, and every target
    is crossed by exactly one of the step from [prev] to [curr] and the step
    back from [curr] to [prev]. *)
Theorem crossed_complement (prev curr target : Q) :
  ~ wrapDeg prev == wrapDeg curr ->
  crossed curr prev target = negb (crossed prev curr target).
Proof.
  unfold crossed. cbv zeta. apply crossed_complement_wrapped.
Qed.

(** ** Houses *)






(** ** The zodiac ring *)

Lemma within_dist (a D : Q) :
  exists x m,
    Qmin (Qabs (a - D)) (360 - Qabs (a - D)) = m /\
    (x == a - D /\ 0 <= a - D \/ x == - (a - D) /\ a - D < 0) /\
    (m == x /\ x < 360 - x \/ m == 360 - x /\ 360 - x <= x).
Proof.
  exists (Qabs (a - D)), (Qmin (Qabs (a - D)) (360 - Qabs (a - D))).
  split; [reflexivity|]. split.
  - destruct (Qlt_le_dec (a - D) 0) as [Hneg|Hpos].
    + right. split; [apply Qabs_neg; lra | exact Hneg].
    + left. split; [apply Qabs_pos; exact Hpos | exact Hpos].
  - destruct (Q.min_spec (Qabs (a - D)) (360 - Qabs (a - D))) as [[Hlt Hm]|[Hle Hm]].
    + left. split; assumption.
    + right. split; assumption.
Qed.

Lemma within_near (a D : Q) :
  - 22.5 <= a - D <= 22.5 \/ 337.5 <= a - D \/ a - D <= - 337.5 ->
  Qle_bool (Qmin (Qabs (a - D)) (360 - Qabs (a - D))) (wedgeWidth / 2) = true.
Proof.
  intros H. destruct (within_dist a D) as (x & m & -> & Hx & Hm).
  apply Qle_bool_iff.
  assert (Hw : wedgeWidth / 2 == 22.5) by reflexivity. rewrite Hw.
  destruct Hx as [[Hx ?]|[Hx ?]]; destruct Hm as [[Hm ?]|[Hm ?]]; lra.
Qed.

Lemma within_far (a D : Q) :
  22.5 < a - D < 337.5 \/ - 337.5 < a - D < - 22.5 ->
  Qle_bool (Qmin (Qabs (a - D)) (360 - Qabs (a - D))) (wedgeWidth / 2) = false.
Proof.
  intros H. destruct (within_dist a D) as (x & m & -> & Hx & Hm).
  apply Qle_bool_gt.
  assert (Hw : wedgeWidth / 2 == 22.5) by reflexivity. rewrite Hw.
  destruct Hx as [[Hx ?]|[Hx ?]]; destruct Hm as [[Hm ?]|[Hm ?]]; lra.
Qed.

Lemma filter_length_sum {A} (f : A -> bool) (l : list A) :
  length (List.filter f l) =
  fold_right (fun x n => ((if f x then 1 else 0) + n)%nat) 0%nat l.
Proof.
  induction l as [|x l IH]; [reflexivity|].
  cbn. destruct (f x); cbn; rewrite IH; reflexivity.
Qed.

(** Decides, for an angle known to lie in one stretch of the ring, which
    signs are highlighted, and counts them. *)
Ltac one_or_two :=
  repeat match goal with
         | |- context [Qle_bool (Qmin (Qabs (?a - ?D)) _) _] =>
             first [ rewrite (within_far a D) by lra
                   | rewrite (within_near a D) by lra ]
         end;
  cbn; lia.

(** X6.  At every sweep angle the ring highlights one sign or two signs:
    never none, never more than two. *)
Theorem active_signs (angle : Q) :
  (1 <= length (List.filter (within angle) SIGNS) <= 2)%nat.
Proof.
  pose proof (wrapDeg_range angle) as [Hlo Hhi].
  rewrite filter_length_sum.
  unfold within. cbv zeta. cbn [fold_right SIGNS sign_deg].
  set (a := wrapDeg angle) in *.
  destruct (Qlt_le_dec a 7.5) as [B0|B0]; [one_or_two|]. clear Hlo.
  destruct (Qlt_le_dec 22.5 a) as [B1|B1]; [|one_or_two]. clear B0.
  destruct (Qlt_le_dec a 37.5) as [B2|B2]; [one_or_two|]. clear B1.
  destruct (Qlt_le_dec 52.5 a) as [B3|B3]; [|one_or_two]. clear B2.
  destruct (Qlt_le_dec a 67.5) as [B4|B4]; [one_or_two|]. clear B3.
  destruct (Qlt_le_dec 82.5 a) as [B5|B5]; [|one_or_two]. clear B4.
  destruct (Qlt_le_dec a 97.5) as [B6|B6]; [one_or_two|]. clear B5.
  destruct (Qlt_le_dec 112.5 a) as [B7|B7]; [|one_or_two]. clear B6.
  destruct (Qlt_le_dec a 127.5) as [B8|B8]; [one_or_two|]. clear B7.
  destruct (Qlt_le_dec 142.5 a) as [B9|B9]; [|one_or_two]. clear B8.
  destruct (Qlt_le_dec a 157.5) as [B10|B10]; [one_or_two|]. clear B9.
  destruct (Qlt_le_dec 172.5 a) as [B11|B11]; [|one_or_two]. clear B10.
  destruct (Qlt_le_dec a 187.5) as [B12|B12]; [one_or_two|]. clear B11.
  destruct (Qlt_le_dec 202.5 a) as [B13|B13]; [|one_or_two]. clear B12.
  destruct (Qlt_le_dec a 217.5) as [B14|B14]; [one_or_two|]. clear B13.
  destruct (Qlt_le_dec 232.5 a) as [B15|B15]; [|one_or_two]. clear B14.
  destruct (Qlt_le_dec a 247.5) as [B16|B16]; [one_or_two|]. clear B15.
  destruct (Qlt_le_dec 262.5 a) as [B17|B17]; [|one_or_two]. clear B16.
  destruct (Qlt_le_dec a 277.5) as [B18|B18]; [one_or_two|]. clear B17.
  destruct (Qlt_le_dec 292.5 a) as [B19|B19]; [|one_or_two]. clear B18.
  destruct (Qlt_le_dec a 307.5) as [B20|B20]; [one_or_two|]. clear B19.
  destruct (Qlt_le_dec 322.5 a) as [B21|B21]; [|one_or_two]. clear B20.
  destruct (Qlt_le_dec a 337.5) as [B22|B22]; [one_or_two|]. clear B21.
  destruct (Qlt_le_dec 352.5 a) as [B23|B23]; [|one_or_two]. clear B22.
  one_or_two.
Qed.

(** ** The tempo badge *)

(** X7.  The badge text and the badge class, for every integer tempo: the text
    is MEDITATE exactly at 60, the work text exactly from 100 to 150, BURNOUT
    exactly from 160 up, and SLOW DOWN! everywhere else, which includes the
    tempos 151 to 159; the class is flow up to 90, work from 91 to 150 and
    rave above.  So from 151 to 159 the badge reads SLOW DOWN! in the rave
    class, and from 91 to 99 it reads SLOW DOWN! in the work class. *)
Theorem tempo_badge_ranges (x : Z) :
  (tempoBadge x = "MEDITATE"%string <-> x = 60%Z) /\
  (tempoBadge x = "WORK BITCH!"%string <-> (100 <= x <= 150)%Z) /\
  (tempoBadge x = "BURNOUT"%string <-> (160 <= x)%Z) /\
  (tempoBadge x = "SLOW DOWN!"%string <->
     x <> 60%Z /\ (x < 100 \/ 150 < x < 160)%Z) /\
  (badgeClass x = "flow"%string <-> (x <= 90)%Z) /\
  (badgeClass x = "work"%string <-> (90 < x <= 150)%Z) /\
  (badgeClass x = "rave"%string <-> (150 < x)%Z) /\
  ((150 < x < 160)%Z ->
     tempoBadge x = "SLOW DOWN!"%string /\ badgeClass x = "rave"%string) /\
  ((90 < x < 100)%Z ->
     tempoBadge x = "SLOW DOWN!"%string /\ badgeClass x = "work"%string).
Proof.
  unfold tempoBadge, badgeClass.
  destruct (Z.eqb_spec x 60); destruct (Z.leb_spec 100 x);
    destruct (Z.leb_spec x 150); destruct (Z.leb_spec 160 x);
    destruct (Z.leb_spec x 90); cbn;
    repeat split; intros; try discriminate; try reflexivity; try lia.
Qed.

(** ** What every reachable state satisfies *)

Section Further.

Variable tone : ToneCaps.

Lemma built_slots_nodes (im : gmap string string) (l : list Planet) :
  forall acc : gmap string Slot,
  (forall k slot, acc !! k = Some slot -> nodes slot = prebuilt_nodes) ->
  forall k slot,
    foldl (fun synths p =>
             <[key p := {| current := im !! key p; nodes := prebuilt_nodes |}]> synths)
          acc l !! k = Some slot ->
    nodes slot = prebuilt_nodes.
Proof.
  induction l as [|p l IH]; intros acc Hacc k slot; cbn [foldl]; [apply Hacc|].
  apply IH. intros k' slot'. rewrite lookup_insert. case_decide as Hk.
  - intros [= <-]. reflexivity.
  - apply Hacc.
Qed.

Lemma buildGraph_ready (h : Hooks) (g : Graph) :
  builtRef g = false ->
  instrumentMap g = ORIGINAL_INSTRUMENTS ->
  slots_ready (buildGraph tone h g).
Proof.
  intros Hb Him p Hp. unfold buildGraph. rewrite Hb. cbn [synthsRef]. rewrite Him.
  destruct (built_slots_cover ORIGINAL_INSTRUMENTS PLANETS ∅ (key p)) as [slot Hslot].
  { right. exists p. auto. }
  exists slot. split; [exact Hslot|]. split.
  - rewrite (built_slots_current ORIGINAL_INSTRUMENTS PLANETS ∅) with (k := key p) (slot := slot).
    + apply original_instruments_lookup, Hp.
    + intros k slot0. rewrite lookup_empty. discriminate.
    + exact Hslot.
  - apply (built_slots_nodes ORIGINAL_INSTRUMENTS PLANETS ∅) with (k := key p).
    + intros k slot0. rewrite lookup_empty. discriminate.
    + exact Hslot.
Qed.

Lemma buildGraph_facts (h : Hooks) (g : Graph) :
  builtRef (buildGraph tone h g) = true /\
  instrumentMap (buildGraph tone h g) = instrumentMap g /\
  (builtRef g = true -> buildGraph tone h g = g).
Proof.
  unfold buildGraph. destruct (builtRef g) eqn:Hb; cbn; auto.
  repeat split. discriminate.
Qed.

Lemma restore_slots_ready (g : Graph) (synths : gmap string Slot) :
  slots_ready g -> synths = restore_slots (synthsRef g) ->
  forall g', synthsRef g' = synths -> slots_ready g'.
Proof.
  intros Hready -> g' Hg' p Hp. destruct (Hready p Hp) as (slot & Hs & Hc & Hn).
  rewrite Hg'. unfold restore_slots. rewrite map_lookup_imap, Hs. cbn.
  eexists. split; [reflexivity|]. cbn. split; [|exact Hn].
  apply original_instruments_lookup, Hp.
Qed.

Lemma initial_coherent : coherent initial.
Proof.
  unfold coherent. cbn. repeat split; try reflexivity; discriminate.
Qed.

Lemma step_coherent (s : State) (e : Event) :
  coherent s -> coherent (step tone s e).
Proof.
  intros (I1 & I2 & I3 & I4 & I5 & I6). unfold coherent.
  destruct e as [ts now|now| |v|fx v]; cbn [step].
  - destruct (running (hooks s)) eqn:Hrun; [|rewrite Hrun; auto 10].
    destruct (loop_clock tone (tempo (bpm (hooks s))) ts now s) as (Hc & Hh & Hg).
    rewrite Hc, Hh, Hg. cbn. rewrite Hrun.
    repeat split; auto; discriminate.
  - unfold handlePlayPause. destruct (running (hooks s)) eqn:Hrun; cbn.
    + repeat split; auto; discriminate.
    + destruct (buildGraph_facts (hooks s) (graph s)) as (B1 & B2 & B3).
      rewrite B1, B2. repeat split; auto.
      intros _. destruct (builtRef (graph s)) eqn:Hb.
      * rewrite B3 by reflexivity. auto.
      * apply buildGraph_ready; assumption.
  - unfold reset. cbv zeta. cbn [graph hooks clock builtRef running angle].
    assert (Hclock :
      forall b : bool,
        prevAngleRef (if b then {| baseTimeRef := None; baseAngleRef := 0; prevAngleRef := 0 |}
                      else {| baseTimeRef := baseTimeRef (clock s);
                              baseAngleRef := 0; prevAngleRef := 0 |}) = 0 /\
        baseAngleRef (if b then {| baseTimeRef := None; baseAngleRef := 0; prevAngleRef := 0 |}
                      else {| baseTimeRef := baseTimeRef (clock s);
                              baseAngleRef := 0; prevAngleRef := 0 |}) = 0).
    { intros []; auto. }
    destruct (Hclock (running (hooks s))) as (C1 & C2). cbn in C1, C2 |- *.
    rewrite C1, C2.
    destruct (builtRef (graph s)) eqn:Hb; cbn [negb].
    + cbn. repeat split; auto.
      intros _. eapply restore_slots_ready; [exact (I5 eq_refl) | reflexivity | reflexivity].
    + match goal with
      | |- context [buildGraph tone ?h ?g1] =>
          destruct (buildGraph_facts h g1) as (B1 & B2 & _);
          pose proof (buildGraph_ready h g1 eq_refl eq_refl) as B3
      end.
      rewrite B1, B2. cbn. repeat split; auto.
  - cbn. auto 10.
  - cbn. auto 10.
Qed.

Lemma run_coherent (events : list Event) : forall s,
  coherent s -> coherent (run tone s events).
Proof.
  induction events as [|e events IH]; intros s H; [exact H|].
  apply (IH (step tone s e)), step_coherent, H.
Qed.

Lemma step_in_current (s : State) (e : Event) :
  step_in tone (hooks s) s e = step tone s e.
Proof. destruct e; reflexivity. Qed.

Lemma initial_graph_ready : graph_ready initial.
Proof.
  unfold graph_ready. cbn. repeat split; try reflexivity; discriminate.
Qed.

Lemma step_in_graph_ready (view : Hooks) (s : State) (e : Event) :
  graph_ready s -> graph_ready (step_in tone view s e).
Proof.
  intros (I1 & I2 & I3). unfold graph_ready.
  destruct e as [ts now|now| |v|fx v]; cbn [step_in].
  - destruct (running view); [|auto].
    destruct (loop_clock tone (tempo (bpm view)) ts now s) as (_ & Hh & Hg).
    rewrite Hh, Hg. cbn. auto.
  - unfold handlePlayPause_in. destruct (running view); cbn.
    + repeat split; auto; discriminate.
    + destruct (buildGraph_facts view (graph s)) as (B1 & B2 & B3).
      rewrite B1, B2. repeat split; auto.
      intros _. destruct (builtRef (graph s)) eqn:Hb.
      * rewrite B3 by reflexivity. auto.
      * apply buildGraph_ready; assumption.
  - unfold reset_in. cbv zeta. cbn [graph hooks builtRef running].
    destruct (builtRef (graph s)) eqn:Hb; cbn [negb].
    + cbn. repeat split; auto.
      intros _. eapply restore_slots_ready; [exact (I2 eq_refl) | reflexivity | reflexivity].
    + match goal with
      | |- context [buildGraph tone ?h ?g1] =>
          destruct (buildGraph_facts h g1) as (B1 & B2 & _);
          pose proof (buildGraph_ready h g1 eq_refl eq_refl) as B3
      end.
      rewrite B1, B2. cbn. repeat split; auto.
  - cbn. auto.
  - cbn. auto.
Qed.

Lemma run_in_graph_ready (events : list (Hooks * Event)) : forall s,
  graph_ready s -> graph_ready (run_in tone s events).
Proof.
  induction events as [|[view e] events IH]; intros s H; [exact H|].
  apply (IH (step_in tone view s e)), step_in_graph_ready, H.
Qed.

Lemma prebuilt_has (p : Planet) :
  p ∈ PLANETS -> prebuilt_nodes !! instrument p = Some (makeSynth (instrument p)).
Proof.
  unfold PLANETS. rewrite !elem_of_cons, elem_of_nil.
  intros H. repeat (destruct H as [->|H]; [vm_compute; reflexivity|]).
  destruct H.
Qed.

Lemma triggerPlanet_js_ready (now : Q) (p : Planet) (i : nat) (s : State) :
  slots_ready (graph s) -> p ∈ PLANETS ->
  triggerPlanet_js tone now p i s = Returned (triggerPlanet tone now p i s).
Proof.
  intros Hready Hp. destruct (Hready p Hp) as (slot & Hs & Hc & Hn).
  unfold triggerPlanet_js, triggerPlanet.
  rewrite (js_get_own _ _ _ Hs), Hs.
  assert (Hnode : nodes slot !! js_key (current slot) = Some (makeSynth (instrument p))).
  { rewrite Hc, Hn. apply prebuilt_has, Hp. }
  rewrite (js_get_own _ _ _ Hnode), Hnode. reflexivity.
Qed.

Lemma loop_js_ready (r ts now : Q) (s : State) :
  (builtRef (graph s) = true -> slots_ready (graph s)) ->
  loop_js tone r ts now s = Returned (loop tone r ts now s).
Proof.
  intros Hready. unfold loop_js, loop. cbv zeta. cbn [graph].
  destruct (builtRef (graph s)); [|reflexivity].
  specialize (Hready eq_refl).
  unfold dispatch, forEach.
  rewrite (forEach_js_returns _
             (fun p idx s0 =>
                if crossed (prevAngleRef (clock s))
                     (wrapDeg (baseAngleRef (clock s)
                               + (ts / 1000
                                  - match baseTimeRef (clock s) with
                                    | None => ts / 1000
                                    | Some b => b
                                    end) * r)) (deg p)
                then triggerPlanet tone now p idx s0 else s0)
             (fun s0 => graph s0 = graph s)).
  - reflexivity.
  - intros q i s0 Hq Hg. destruct (crossed _ _ (deg q)).
    + split.
      * apply triggerPlanet_js_ready; [rewrite Hg; exact Hready | exact Hq].
      * destruct (triggerPlanet_frame tone now q i s0) as (_ & _ & G).
        rewrite G. exact Hg.
    + split; [reflexivity | exact Hg].
  - reflexivity.
Qed.

(** X9.  In every state the component can reach, whichever renders the
    clicks and frame callbacks were taken from: a running component has its
    audio graph built; once built, every planet has its slot, set to its
    original instrument with all prebuilt nodes; the instrument map is the
    original one; and no frame throws.  Handlers of the current render are
    the special case [step]. *)
Theorem reachable_graph (events : list (Hooks * Event)) :
  let s := run_in tone initial events in
  (running (hooks s) = true -> builtRef (graph s) = true) /\
  (builtRef (graph s) = true ->
   forall p, p ∈ PLANETS ->
     exists slot, synthsRef (graph s) !! key p = Some slot /\
                  current slot = Some (instrument p) /\
                  nodes slot = prebuilt_nodes) /\
  instrumentMap (graph s) = ORIGINAL_INSTRUMENTS /\
  (forall r ts now, loop_js tone r ts now s = Returned (loop tone r ts now s)) /\
  (forall s0 e, step tone s0 e = step_in tone (hooks s0) s0 e).
Proof.
  destruct (run_in_graph_ready events initial initial_graph_ready) as (I1 & I2 & I3).
  cbv zeta. split; [exact I1|]. split; [exact I2|]. split; [exact I3|]. split.
  - intros r ts now. apply loop_js_ready. exact I2.
  - intros s0 e. symmetry. apply step_in_current.
Qed.

(** ** Frames that trigger nothing *)

Lemma crossed_nothing (prev curr : Q) :
  wrapDeg prev == wrapDeg curr -> forall target, crossed prev curr target = false.
Proof.
  intros Heq target.
  destruct (crossed prev curr target) eqn:E; [|reflexivity].
  assert (Hle : wrapDeg prev <= wrapDeg curr) by (rewrite Heq; apply Qle_refl).
  apply (crossed_no_wrap _ _ _ Hle) in E. destruct E as [E1 E2].
  exfalso. apply (Qlt_not_le _ _ E1). rewrite Heq. exact E2.
Qed.

Lemma dispatch_nothing {St} (trigger : Planet -> nat -> St -> St)
    (bodies : list Planet) (prev curr : Q) (s : St) :
  (forall target, crossed prev curr target = false) ->
  dispatch trigger bodies prev curr s = s.
Proof.
  intros Hno. unfold dispatch, forEach. generalize 0%nat.
  induction bodies as [|p l IH]; intros i; cbn [forEach_from]; [reflexivity|].
  rewrite Hno. apply IH.
Qed.

Lemma loop_quiet (r ts now : Q) (s : State) :
  let base := match baseTimeRef (clock s) with
              | None => ts / 1000
              | Some b => b
              end in
  let curr := wrapDeg (baseAngleRef (clock s) + (ts / 1000 - base) * r) in
  wrapDeg (prevAngleRef (clock s)) == wrapDeg curr ->
  scheduled (loop tone r ts now s) = scheduled s.
Proof.
  intros base curr Heq. unfold loop. cbv zeta. fold base. fold curr.
  cbn [graph scheduled]. rewrite dispatch_nothing by (apply crossed_nothing, Heq).
  destruct (builtRef (graph s)); reflexivity.
Qed.

Lemma loop_fixed (r ts now t0 : Q) (s : State) :
  baseTimeRef (clock s) = Some t0 ->
  prevAngleRef (clock s) = wrapDeg (baseAngleRef (clock s) + (ts / 1000 - t0) * r) ->
  angle (hooks s) = prevAngleRef (clock s) ->
  loop tone r ts now s = s.
Proof.
  intros Hb Hp Ha. unfold loop. cbv zeta. rewrite Hb.
  rewrite dispatch_nothing.
  - destruct s as [[run b a dw fw lw rw] [bt ba pa] g sch]. cbn in *.
    subst. destruct (builtRef g); reflexivity.
  - apply crossed_nothing. rewrite <- Hp. reflexivity.
Qed.

(** X10.  A frame delivered twice with the same timestamp changes nothing the
    second time: same state, so same angle and no note scheduled again,
    whatever the audio clock reads. *)
Theorem frame_repeat (s : State) (ts now now' : Q) :
  step tone (step tone s (Frame ts now)) (Frame ts now') = step tone s (Frame ts now).
Proof.
  cbn [step]. destruct (running (hooks s)) eqn:Hrun; [|rewrite Hrun; reflexivity].
  destruct (loop_clock tone (tempo (bpm (hooks s))) ts now s) as (Hc & Hh & _).
  cbv zeta in Hc, Hh.
  set (s1 := loop tone (tempo (bpm (hooks s))) ts now s) in *.
  assert (Hr1 : running (hooks s1) = true) by (rewrite Hh; exact Hrun).
  assert (Hb1 : bpm (hooks s1) = bpm (hooks s)) by (rewrite Hh; reflexivity).
  rewrite Hr1, Hb1.
  eapply loop_fixed.
  - rewrite Hc. reflexivity.
  - rewrite Hc. reflexivity.
  - rewrite Hc, Hh. reflexivity.
Qed.

(** X11.  The first frame after the transport (re)starts.  Play, handled by
    any render that shows the transport stopped, clears the base timestamp
    and puts the previous-angle ref at the base angle, which it keeps; Reset
    handled by a render that shows it running does the same, with both at 0.
    In any such state with the base angle in [0, 360) the next frame, at any
    tempo, records its timestamp as the base, keeps the base angle, puts the
    sweep at the wrapped base angle and schedules no note. *)
Theorem restart_quiet (r ts now : Q) :
  (forall s,
     baseTimeRef (clock s) = None ->
     prevAngleRef (clock s) = baseAngleRef (clock s) ->
     0 <= baseAngleRef (clock s) < 360 ->
     let s' := loop tone r ts now s in
     baseTimeRef (clock s') = Some (ts / 1000) /\
     baseAngleRef (clock s') = baseAngleRef (clock s) /\
     angle (hooks s') == wrapDeg (baseAngleRef (clock s)) /\
     prevAngleRef (clock s') = angle (hooks s') /\
     scheduled s' = scheduled s) /\
  (forall view now0 s0,
     running view = false ->
     let s := handlePlayPause_in tone view now0 s0 in
     baseTimeRef (clock s) = None /\
     prevAngleRef (clock s) = baseAngleRef (clock s) /\
     baseAngleRef (clock s) = baseAngleRef (clock s0)) /\
  (forall view s0,
     running view = true ->
     let s := reset_in tone view s0 in
     baseTimeRef (clock s) = None /\
     prevAngleRef (clock s) = baseAngleRef (clock s) /\
     baseAngleRef (clock s) = 0).
Proof.
  split; [|split].
  - intros s Hnone Hprev _ s'.
    destruct (loop_clock tone r ts now s) as (Hc & Hh & _).
    cbv zeta in Hc, Hh. rewrite Hnone in Hc, Hh. fold s' in Hc, Hh.
    assert (E : wrapDeg (baseAngleRef (clock s) + (ts / 1000 - ts / 1000) * r)
                == wrapDeg (baseAngleRef (clock s))).
    { apply wrapDeg_proper. ring. }
    split; [rewrite Hc; reflexivity|].
    split; [rewrite Hc; reflexivity|].
    split; [rewrite Hh; exact E|].
    split; [rewrite Hc, Hh; reflexivity|].
    apply loop_quiet. cbv zeta. rewrite Hnone, Hprev, E.
    symmetry. apply wrapDeg_id, wrapDeg_range.
  - intros view now0 s0 Hview. cbv zeta. unfold handlePlayPause_in.
    rewrite Hview. cbn. auto.
  - intros view s0 Hview. cbv zeta. unfold reset_in. cbv zeta.
    cbn [clock]. rewrite Hview. cbn. auto.
Qed.

(** ** What gets scheduled *)

Lemma planet_voice_nonempty (p : Planet) (idx : Z) (t : Q) :
  p ∈ PLANETS -> voice_calls tone (Some (instrument p)) idx t <> [].
Proof.
  unfold PLANETS. rewrite !elem_of_cons, elem_of_nil.
  intros H. repeat (destruct H as [->|H]; [discriminate|]).
  destruct H.
Qed.

(** X12.  Once the graph is built, in any reachable state, a trigger is never
    skipped: for every planet of the chart it appends to the scheduled calls
    the calls of the planet's original instrument, at least one, addressed to
    that planet's node for that instrument, and changes nothing else. *)
Theorem trigger_sounds (events : list Event) (p : Planet) (idx : nat) (now : Q) :
  let s := run tone initial events in
  builtRef (graph s) = true ->
  p ∈ PLANETS ->
  let calls := voice_calls tone (Some (instrument p)) (Z.of_nat idx) now in
  calls <> [] /\
  triggerPlanet tone now p idx s =
    {| hooks := hooks s; clock := clock s; graph := graph s;
       scheduled :=
         scheduled s ++
         map (fun c => (PlanetNode (key p) (Some (instrument p))
                                   (makeSynth (instrument p)), c)) calls |}.
Proof.
  intros s Hb Hp calls.
  destruct (run_coherent events initial initial_coherent) as (_ & _ & _ & _ & I5 & _).
  fold s in I5. destruct (I5 Hb p Hp) as (slot & Hs & Hc & Hn).
  split; [apply planet_voice_nonempty, Hp|].
  unfold triggerPlanet. rewrite Hs, Hn, Hc. cbn [js_key].
  rewrite (prebuilt_has p Hp). reflexivity.
Qed.





(** ** Sliders, nodes and reset *)

Lemma set_wet_value (v : Q) (ref : option FxNode) (n : FxNode) (w : Q) :
  set_wet v ref = Some n -> fx_wet n = Some w -> w = v.
Proof.
  unfold set_wet. destruct ref as [n0|]; [|discriminate].
  destruct (fx_wet n0) eqn:E.
  - intros [= <-]. cbn. intros [= <-]. reflexivity.
  - intros [= <-]. rewrite E. discriminate.
Qed.

Lemma reset_in_built (view : Hooks) (s : State) :
  builtRef (graph (reset_in tone view s)) = true.
Proof.
  unfold reset_in. cbv zeta. cbn [graph builtRef].
  destruct (builtRef (graph s)) eqn:Hb; cbn [negb]; [reflexivity|].
  apply buildGraph_facts.
Qed.

Lemma reset_in_built_sync (view : Hooks) (s : State) :
  builtRef (graph s) = true -> wet_in_sync (reset_in tone view s).
Proof.
  intros Hb fx n w. unfold reset_in. cbv zeta. cbn [graph hooks builtRef].
  rewrite Hb. cbn [negb].
  destruct fx; cbn [fx_ref hook_wet distortionRef autoFilterRef delayRef reverbRef
                    distWet filtWet delWet revWet];
    apply set_wet_value.
Qed.

Lemma step_in_built (view : Hooks) (s : State) (e : Event) :
  builtRef (graph s) = true -> builtRef (graph (step_in tone view s e)) = true.
Proof.
  intros Hb. destruct e as [ts now|now| |v|fx v]; cbn [step_in].
  - destruct (running view); [|exact Hb].
    destruct (loop_clock tone (tempo (bpm view)) ts now s) as (_ & _ & Hg).
    rewrite Hg. exact Hb.
  - unfold handlePlayPause_in. destruct (running view); cbn; [exact Hb|].
    apply buildGraph_facts.
  - apply reset_in_built.
  - exact Hb.
  - exact Hb.
Qed.

Lemma step_in_sync (view : Hooks) (s : State) (e : Event) :
  builtRef (graph s) = true -> wet_in_sync s -> wet_in_sync (step_in tone view s e).
Proof.
  intros Hb Hsync. destruct e as [ts now|now| |v|fx' v]; cbn [step_in].
  - destruct (running view); [|exact Hsync].
    destruct (loop_clock tone (tempo (bpm view)) ts now s) as (_ & Hh & Hg).
    intros fx n w. rewrite Hg, Hh. destruct fx;
      [ exact (Hsync FxDistortion n w) | exact (Hsync FxFilter n w)
      | exact (Hsync FxDelay n w) | exact (Hsync FxReverb n w) ].
  - unfold handlePlayPause_in. destruct (running view); cbn [negb].
    + intros fx n w. destruct fx;
      [ exact (Hsync FxDistortion n w) | exact (Hsync FxFilter n w)
      | exact (Hsync FxDelay n w) | exact (Hsync FxReverb n w) ].
    + intros fx n w. cbn [graph hooks].
      destruct (buildGraph_facts view (graph s)) as (_ & _ & B3).
      rewrite (B3 Hb). destruct fx;
      [ exact (Hsync FxDistortion n w) | exact (Hsync FxFilter n w)
      | exact (Hsync FxDelay n w) | exact (Hsync FxReverb n w) ].
  - apply reset_in_built_sync, Hb.
  - intros fx n w. destruct fx;
      [ exact (Hsync FxDistortion n w) | exact (Hsync FxFilter n w)
      | exact (Hsync FxDelay n w) | exact (Hsync FxReverb n w) ].
  - intros fx n w. unfold onWet.
    destruct fx', fx;
      cbn [graph hooks fx_ref hook_wet distortionRef autoFilterRef delayRef reverbRef
           distWet filtWet delWet revWet];
      first [ apply set_wet_value
            | apply (Hsync FxDistortion) | apply (Hsync FxFilter)
            | apply (Hsync FxDelay) | apply (Hsync FxReverb) ].
Qed.

(** X14.  Once the graph is built with every effect node that has a wet
    signal at the value of its slider cell, it stays built and the nodes
    stay at the values of their cells, whatever follows: frames, clicks on
    Play/Pause and Reset, slider moves, handled by whichever render. *)
Theorem wet_sync_kept (s : State) (events : list (Hooks * Event)) :
  builtRef (graph s) = true ->
  wet_in_sync s ->
  builtRef (graph (run_in tone s events)) = true /\
  wet_in_sync (run_in tone s events).
Proof.
  revert s. induction events as [|[view e] l IH]; intros s Hb Hs; [auto|].
  unfold run_in. cbn [foldl fst snd].
  apply IH; [apply step_in_built, Hb | apply step_in_sync; assumption].
Qed.

(** X15.  Reset, handled by whichever render, puts the four slider cells at
    0.15, 0.10, 0.18 and 0.12 and leaves the graph built.  On a graph that
    was built before the click every effect node that has a wet signal is at
    the default of its slider as well; so it is after a second Reset, from
    any state. *)
Theorem reset_resyncs (view : Hooks) (s : State) :
  let default fx := match fx with
                    | FxDistortion => 0.15
                    | FxFilter => 0.10
                    | FxDelay => 0.18
                    | FxReverb => 0.12
                    end in
  let s1 := reset_in tone view s in
  (forall fx, hook_wet fx (hooks s1) = default fx) /\
  builtRef (graph s1) = true /\
  (builtRef (graph s) = true ->
   forall fx n w, fx_ref fx (graph s1) = Some n -> fx_wet n = Some w -> w = default fx) /\
  (forall view2,
     let s2 := reset_in tone view2 s1 in
     (forall fx, hook_wet fx (hooks s2) = default fx) /\
     forall fx n w, fx_ref fx (graph s2) = Some n -> fx_wet n = Some w -> w = default fx) /\
  reset_in tone (hooks s) s = reset tone s.
Proof.
  intros default s1.
  assert (Hcells : forall v s0 fx, hook_wet fx (hooks (reset_in tone v s0)) = default fx).
  { intros v s0 fx. destruct fx; reflexivity. }
  assert (Hnodes : forall v s0, builtRef (graph s0) = true ->
            forall fx n w, fx_ref fx (graph (reset_in tone v s0)) = Some n ->
                           fx_wet n = Some w -> w = default fx).
  { intros v s0 Hb fx n w Hn Hw. rewrite <- (Hcells v s0 fx).
    exact (reset_in_built_sync v s0 Hb fx n w Hn Hw). }
  split; [apply Hcells|]. split; [apply reset_in_built|].
  split; [apply Hnodes|]. split; [|reflexivity].
  intros view2 s2. split; [apply Hcells|].
  apply Hnodes, reset_in_built.
Qed.

(** X16.  When the Tone module has no [FeedbackDelay] but has [Delay], the
    graph is built with a plain delay node, which has no wet signal: from
    then on the delay slider and Reset change the slider cell but leave the
    delay node as it is. *)
Theorem delay_fallback (h : Hooks) (g : Graph) :
  builtRef g = false ->
  has_FeedbackDelay tone = false ->
  has_Delay tone = true ->
  let g' := buildGraph tone h g in
  delayRef g' = Some {| fx_kind := Delay; fx_wet := None |} /\
  forall s v,
    graph s = g' ->
    delWet (hooks (step tone s (SlideWet FxDelay v))) = v /\
    graph (step tone s (SlideWet FxDelay v)) = g' /\
    delWet (hooks (step tone s ClickReset)) = 0.18 /\
    delayRef (graph (step tone s ClickReset)) = Some {| fx_kind := Delay; fx_wet := None |}.
Proof.
  intros Hb Hfd Hd g'.
  assert (Hg' : delayRef g' = Some {| fx_kind := Delay; fx_wet := None |}).
  { unfold g', buildGraph. rewrite Hb, Hfd, Hd. reflexivity. }
  assert (Hbuilt : builtRef g' = true) by apply buildGraph_facts.
  split; [exact Hg'|].
  intros s v Hs. split; [reflexivity|]. split.
  - cbn. rewrite Hs, Hg'. cbn. rewrite <- Hg'. destruct g'; reflexivity.
  - split; [reflexivity|].
    cbn [step]. unfold reset. cbv zeta. cbn [graph builtRef].
    rewrite Hs, Hbuilt. cbn. rewrite Hg'. reflexivity.
Qed.

(** ** Voices *)

Lemma pick_defined (i : Z) : exists n, pick i = Some n.
Proof.
  unfold pick. change SCALE_length with 15%Z. rewrite pick_index.
  pose proof (Z.mod_pos_bound i 15) as Hb.
  apply lookup_lt_is_Some_2. change (length SCALE) with 15%nat. lia.
Qed.

(** X17.  For every sound of the library, every planet index and every time:
    the trigger makes one or two calls; a call that carries a note carries a
    defined one and goes to a pitched synth, and a call without a note goes to
    a noise synth or is the release of the plucked note. *)
Theorem voice_calls_fit (idx : Z) (t : Q) :
  Forall (fun e =>
            let calls := voice_calls tone (Some (fst e)) idx t in
            (1 <= length calls <= 2)%nat /\
            Forall (fun c =>
                      match call_note c with
                      | Some note =>
                          makeSynth (fst e) <> NoiseSynth /\ exists n, note = Some n
                      | None =>
                          makeSynth (fst e) = NoiseSynth \/ exists t', c = Release t'
                      end) calls)
         SOUND_LIBRARY.
Proof.
  unfold SOUND_LIBRARY.
  repeat (apply List.Forall_cons;
          [cbn; split; [lia|];
           repeat first [apply List.Forall_nil | apply List.Forall_cons]; cbn;
           first [ left; reflexivity
                 | right; eexists; reflexivity
                 | split; [discriminate|];
                   first [eexists; reflexivity | apply pick_defined] ]
          |]).
  apply List.Forall_nil.
Qed.

(** ** Unmounting *)

(** X19.  [disposeGraph] on a built graph forgets every slot, so that no
    trigger for a planet of the chart can sound any more (it returns without
    a call), and marks the graph as not built, while the four effect refs
    keep their nodes; doing it again changes nothing; and [buildGraph]
    afterwards gives every planet its slot back, set to its original
    instrument.  On a graph that is not built it does nothing. *)
Theorem dispose_then_build (h : Hooks) (g : Graph) :
  instrumentMap g = ORIGINAL_INSTRUMENTS ->
  let d := disposeGraph g in
  (builtRef g = false -> d = g) /\
  (builtRef g = true ->
   builtRef d = false /\
   synthsRef d = ∅ /\
   (forall fx, fx_ref fx d = fx_ref fx g) /\
   (forall s now p idx,
      p ∈ PLANETS -> graph s = d ->
      triggerPlanet_js tone now p idx s = Returned s /\
      triggerPlanet tone now p idx s = s)) /\
  disposeGraph d = d /\
  (builtRef (buildGraph tone h d) = true /\
   forall p, p ∈ PLANETS ->
     exists slot, synthsRef (buildGraph tone h d) !! key p = Some slot /\
                  current slot = Some (instrument p) /\
                  nodes slot = prebuilt_nodes).
Proof.
  intros Him d. unfold d, disposeGraph.
  destruct (builtRef g) eqn:Hb; cbn [negb].
  2: {
    split; [reflexivity|]. split; [discriminate|]. rewrite Hb. cbn [negb].
    split; [reflexivity|]. split; [apply buildGraph_facts|].
    apply buildGraph_ready; assumption. }
  split; [discriminate|]. split.
  - intros _. cbn. split; [reflexivity|]. split; [reflexivity|]. split.
    + intros fx. destruct fx; reflexivity.
    + intros s now p idx Hp Hs. unfold triggerPlanet_js, triggerPlanet.
      rewrite Hs. cbn [synthsRef].
      rewrite (js_get_missing _ _ (lookup_empty (key p)) (planets_plain p Hp)).
      rewrite lookup_empty. split; reflexivity.
  - split; [reflexivity|]. split; [apply buildGraph_facts|].
    apply buildGraph_ready; [reflexivity | exact Him].
Qed.

End Further.

(** ** The further theorems at concrete inputs *)

(** The step from 350 to 10 degrees cut at 5 degrees, for a target at 355. *)
Lemma crossed_split_witness :
  crossed 350 10 5 = true /\
  crossed 350 10 355 = crossed 350 5 355 || crossed 5 10 355 /\
  crossed 350 5 355 && crossed 5 10 355 = false.
Proof.
  split; [reflexivity|].
  apply (crossed_split 350 5 10 355). reflexivity.
Defined.

(** The steps from 10 to 20 degrees and back, for a target at 15. *)
Lemma crossed_complement_witness :
  ~ wrapDeg 10 == wrapDeg 20 /\
  crossed 20 10 15 = negb (crossed 10 20 15).
Proof.
  assert (H : ~ wrapDeg 10 == wrapDeg 20).
  { intros H. unfold Qeq in H. vm_compute in H. lia. }
  split; [exact H|].
  apply (crossed_complement 10 20 15 H).
Defined.

(** After Play the Sun sounds on its lead synth. *)
Lemma trigger_sounds_witness :
  let sun := {| key := "Sun"; glyph := "☉"; deg := 311.59; instrument := "lead" |} in
  let s := run tone15 initial [ClickPlayPause 0] in
  builtRef (graph s) = true /\
  sun ∈ PLANETS /\
  scheduled (triggerPlanet tone15 7 sun 0 s) =
    scheduled s ++ [(PlanetNode "Sun" (Some "lead"%string) Synth,
                     AttackRelease3 (Some "G3"%string) "8n" 7)].
Proof.
  cbv zeta.
  assert (Hin : {| key := "Sun"; glyph := "☉"; deg := 311.59; instrument := "lead" |}
                ∈ PLANETS) by constructor.
  split; [reflexivity|]. split; [exact Hin|].
  pose proof (trigger_sounds tone15 [ClickPlayPause 0] _ 0 7 eq_refl Hin) as H.
  cbv zeta in H. destruct H as (_ & H). rewrite H. reflexivity.
Defined.

(** After the first Play: the distortion slider, a Reset from the render
    before the click on Play, a frame and a Pause. *)
Lemma wet_sync_kept_witness :
  let s := run tone15 initial [ClickPlayPause 0] in
  let events := [(hooks s, SlideWet FxDistortion 0.5); (hooks initial, ClickReset);
                 (hooks s, Frame 1000 1); (hooks s, ClickPlayPause 2)] in
  builtRef (graph s) = true /\
  wet_in_sync s /\
  builtRef (graph (run_in tone15 s events)) = true /\
  wet_in_sync (run_in tone15 s events).
Proof.
  cbv zeta.
  assert (Hs : wet_in_sync (run tone15 initial [ClickPlayPause 0])).
  { intros fx n w. destruct fx; vm_compute; intros [= <-] [= <-]; reflexivity. }
  split; [reflexivity|]. split; [exact Hs|].
  apply (wet_sync_kept tone15 (run tone15 initial [ClickPlayPause 0])); [reflexivity | exact Hs].
Defined.

(** A Tone module without [FeedbackDelay]: Play, then the delay slider. *)
Lemma delay_fallback_witness :
  let core := {| has_Distortion := true; has_AutoFilter := true;
                 has_FeedbackDelay := false; has_Delay := true;
                 has_Reverb := true; eighth_note_seconds := 0.25 |} in
  let s := run core initial [ClickPlayPause 0] in
  builtRef (graph initial) = false /\
  delayRef (graph s) = Some {| fx_kind := Delay; fx_wet := None |} /\
  graph (step core s (SlideWet FxDelay 0.9)) = graph s.
Proof.
  cbv zeta. split; [reflexivity|].
  pose proof (delay_fallback
                {| has_Distortion := true; has_AutoFilter := true;
                   has_FeedbackDelay := false; has_Delay := true;
                   has_Reverb := true; eighth_note_seconds := 0.25 |}
                (hooks initial) (graph initial) eq_refl eq_refl eq_refl) as H.
  cbv zeta in H. destruct H as (H1 & H2).
  split; [exact H1|].
  match goal with
  | |- graph (step ?c ?s _) = _ => destruct (H2 s 0.9 eq_refl) as (_ & H3 & _)
  end.
  exact H3.
Defined.

(** The graph built by the first Play, disposed and built again. *)
Lemma dispose_then_build_witness :
  let g := graph (run tone15 initial [ClickPlayPause 0]) in
  let moon := {| key := "Moon"; glyph := "☽"; deg := 52.1; instrument := "pad" |} in
  let s := {| hooks := hooks initial; clock := clock initial;
              graph := disposeGraph g; scheduled := [] |} in
  instrumentMap g = ORIGINAL_INSTRUMENTS /\
  builtRef (disposeGraph g) = false /\
  triggerPlanet_js tone15 0 moon 1 s = Returned s /\
  builtRef (buildGraph tone15 (hooks initial) (disposeGraph g)) = true.
Proof.
  cbv zeta.
  assert (Him : instrumentMap (graph (run tone15 initial [ClickPlayPause 0]))
                = ORIGINAL_INSTRUMENTS) by reflexivity.
  assert (Hin : {| key := "Moon"; glyph := "☽"; deg := 52.1; instrument := "pad" |}
                ∈ PLANETS) by (do 1 constructor; constructor).
  split; [exact Him|].
  pose proof (dispose_then_build tone15 (hooks initial) _ Him) as H.
  cbv zeta in H. destruct H as (_ & H1 & _ & H2 & _).
  destruct (H1 eq_refl) as (Hb & _ & _ & Ht).
  split; [exact Hb|]. split; [|exact H2].
  apply Ht; [exact Hin | reflexivity].
Defined.

(** ** What a frame sounds *)

Section FrameOutput.

Variable tone : ToneCaps.

Lemma triggerPlanet_ready (now : Q) (p : Planet) (idx : nat) (s : State) :
  slots_ready (graph s) -> p ∈ PLANETS ->
  triggerPlanet tone now p idx s =
    {| hooks := hooks s; clock := clock s; graph := graph s;
       scheduled :=
         scheduled s ++
         map (fun c => (PlanetNode (key p) (Some (instrument p))
                                   (makeSynth (instrument p)), c))
             (voice_calls tone (Some (instrument p)) (Z.of_nat idx) now) |}.
Proof.
  intros Hready Hp. destruct (Hready p Hp) as (slot & Hs & Hc & Hn).
  unfold triggerPlanet. rewrite Hs, Hn, Hc. cbn [js_key].
  rewrite (prebuilt_has p Hp). reflexivity.
Qed.

Lemma triggers_output (now : Q) (calls : list (Planet * nat)) : forall s,
  slots_ready (graph s) ->
  (forall c, c ∈ calls -> fst c ∈ PLANETS) ->
  scheduled (foldl (fun s c => triggerPlanet tone now (fst c) (snd c) s) s calls) =
  scheduled s ++
  flat_map (fun c =>
              map (fun a => (PlanetNode (key (fst c)) (Some (instrument (fst c)))
                                        (makeSynth (instrument (fst c))), a))
                  (voice_calls tone (Some (instrument (fst c))) (Z.of_nat (snd c)) now))
           calls.
Proof.
  induction calls as [|[p i] calls IH]; intros s Hready Hin.
  - cbn. rewrite app_nil_r. reflexivity.
  - cbn [foldl flat_map fst snd].
    assert (Hp : p ∈ PLANETS) by (apply (Hin (p, i)); constructor).
    rewrite (triggerPlanet_ready now p i s Hready Hp).
    rewrite IH.
    + cbn [scheduled]. rewrite <- app_assoc. reflexivity.
    + exact Hready.
    + intros c Hc. apply Hin. constructor. exact Hc.
Qed.

(** X21.  What a frame sends to the audio engine, at any tempo, in any state
    whose graph is built with every planet's slot ready: for each planet
    whose degree lies on the arc from the previous-angle ref to the new
    angle, taken in chart order, the calls of the planet's instrument on the
    planet's node, appended to what was scheduled before; nothing for the
    other planets; and the frame does not throw. *)
Theorem frame_output (r ts now : Q) (s : State) :
  builtRef (graph s) = true ->
  slots_ready (graph s) ->
  let s' := loop tone r ts now s in
  loop_js tone r ts now s = Returned s' /\
  scheduled s' =
    scheduled s ++
    flat_map (fun c =>
                map (fun a => (PlanetNode (key (fst c)) (Some (instrument (fst c)))
                                          (makeSynth (instrument (fst c))), a))
                    (voice_calls tone (Some (instrument (fst c)))
                                 (Z.of_nat (snd c)) now))
             (filter (fun c => crossed (prevAngleRef (clock s)) (angle (hooks s'))
                                       (deg (fst c)) = true)
                     (imap (fun k p => (p, k)) PLANETS)).
Proof.
  intros Hb Hready s'.
  split; [apply loop_js_ready; intros _; exact Hready|].
  destruct (loop_clock tone r ts now s) as (_ & Hh & _).
  cbv zeta in Hh. fold s' in Hh. rewrite Hh. cbn [angle].
  unfold s', loop. cbv zeta. cbn [graph scheduled]. rewrite Hb.
  unfold dispatch, forEach. rewrite dispatch_from_calls, indexed_0.
  rewrite triggers_output.
  - reflexivity.
  - exact Hready.
  - intros [p i] Hc. apply list_elem_of_filter in Hc as [_ Hc].
    apply elem_of_lookup_imap in Hc as (k & q & Heq & Hk).
    inversion Heq; subst. cbn. apply list_elem_of_lookup. eexists; exact Hk.
Qed.

End FrameOutput.

(** Play, then frames at 0 and 0.15 seconds: the sweep passes the Moon at
    52.1 degrees and its pad sounds. *)
Lemma frame_output_witness :
  let s := run tone15 initial [ClickPlayPause 0; Frame 1000 0] in
  builtRef (graph s) = true /\
  slots_ready (graph s) /\
  scheduled (loop tone15 360 1150 3 s) =
    scheduled s ++ [(PlanetNode "Moon" (Some "pad"%string) Synth,
                     AttackRelease3 (Some "G4"%string) "4n" 3)].
Proof.
  cbv zeta.
  assert (Hready : slots_ready (graph (run tone15 initial [ClickPlayPause 0; Frame 1000 0]))).
  { intros p Hp. unfold PLANETS in Hp. rewrite !elem_of_cons, elem_of_nil in Hp.
    repeat (destruct Hp as [->|Hp];
            [eexists; split; [vm_compute; reflexivity | split; reflexivity]|]).
    destruct Hp. }
  split; [reflexivity|]. split; [exact Hready|].
  pose proof (frame_output tone15 360 1150 3
                (run tone15 initial [ClickPlayPause 0; Frame 1000 0])
                eq_refl Hready) as H.
  cbv zeta in H. destruct H as (_ & H). rewrite H. reflexivity.
Defined.
